(** * tiddlyverse: the tiddler codec and the tiddler stores

    A shallow embedding of [tiddler.go] (the line codec of a tiddler file)
    and of the store layer (index, cache, the three backends' shared
    logic), with the properties of the storage layer stated over it.
    Further on come the walks of the stores, the folders and the template
    list of the file store, and the two places of [serve.go] that handle
    records: the payload of a PUT and the skinny list.

    Go strings are byte strings: they are [string] here, one [ascii] per
    byte.  A Go [map[string]T] is a [gmap string T]; where the source can
    hold a nil map the model says so ([GoMap]).  A call that panics in Go
    yields [Panic]; a returned [error] yields [Err] with its message. *)

From Stdlib Require Import Ascii.
From stdpp Require Import gmap strings list fin_maps sorting.
From Equations Require Import Equations.

Set Warnings "-register-all".

(** ** Results of Go calls *)

Inductive Res (A : Type) : Type :=
| Ok (a : A)
| Err (e : string)
| Panic.
Arguments Ok {A} a.
Arguments Err {A} e.
Arguments Panic {A}.

(** ** The string functions of the Go library the sources call *)

Module GoStrings.

Definition nl : ascii := "010"%char.
Definition colon : ascii := ":"%char.

(** [strings.HasPrefix]. *)
Fixpoint HasPrefix (s p : string) {struct p} : bool :=
  match p, s with
  | EmptyString, _ => true
  | String b p', String a s' => if Ascii.eqb a b then HasPrefix s' p' else false
  | String _ _, EmptyString => false
  end.

(** [strings.HasSuffix]: a prefix of the reversed string. *)
Definition HasSuffix (s p : string) : bool :=
  HasPrefix (String.rev s) (String.rev p).

(** The slices [s[:n]] and [s[n:]], for [n] within the string. *)
Fixpoint slice_to (n : nat) (s : string) : string :=
  match n, s with
  | S n', String a s' => String a (slice_to n' s')
  | _, _ => EmptyString
  end.

Fixpoint slice_from (n : nat) (s : string) : string :=
  match n, s with
  | S n', String _ s' => slice_from n' s'
  | _, _ => s
  end.

(** [strings.TrimSuffix]. *)
Definition TrimSuffix (s p : string) : string :=
  if HasSuffix s p then slice_to (String.length s - String.length p) s else s.

(** [strings.Index(s, ":")] for a one-byte separator: the offset of its
    first occurrence, [None] for Go's -1. *)
Fixpoint IndexByte (s : string) (c : ascii) : option nat :=
  match s with
  | EmptyString => None
  | String a s' => if Ascii.eqb a c then Some 0 else S <$> IndexByte s' c
  end.

(** The runes [unicode.IsSpace] accepts, by their UTF-8 encodings.  One
    byte: tab, line feed, vertical tab, form feed, carriage return and
    space.  Two bytes: U+0085 and U+00A0.  Three bytes: U+1680,
    U+2000 to U+200A, U+2028, U+2029, U+202F, U+205F and U+3000. *)
Definition isSpace1 (a : ascii) : bool :=
  let n := nat_of_ascii a in
  (Nat.leb 9 n && Nat.leb n 13) || Nat.eqb n 32.

Definition isSpace2 (a b : ascii) : bool :=
  let n := nat_of_ascii a in
  let m := nat_of_ascii b in
  Nat.eqb n 194 && (Nat.eqb m 133 || Nat.eqb m 160).

Definition isSpace3 (a b c : ascii) : bool :=
  let n := nat_of_ascii a in
  let m := nat_of_ascii b in
  let k := nat_of_ascii c in
  (Nat.eqb n 225 && Nat.eqb m 154 && Nat.eqb k 128)
  || (Nat.eqb n 226 && Nat.eqb m 128
      && ((Nat.leb 128 k && Nat.leb k 138)
          || Nat.eqb k 168 || Nat.eqb k 169 || Nat.eqb k 175))
  || (Nat.eqb n 226 && Nat.eqb m 129 && Nat.eqb k 159)
  || (Nat.eqb n 227 && Nat.eqb m 128 && Nat.eqb k 128).

(** [strings.TrimLeftFunc(s, unicode.IsSpace)]: runes are decoded from
    the front; a byte that starts no white space rune stops the scan. *)
Fixpoint TrimLeft (s : string) : string :=
  match s with
  | EmptyString => EmptyString
  | String a s1 =>
      if isSpace1 a then TrimLeft s1
      else match s1 with
           | EmptyString => s
           | String b s2 =>
               if isSpace2 a b then TrimLeft s2
               else match s2 with
                    | EmptyString => s
                    | String c s3 => if isSpace3 a b c then TrimLeft s3 else s
                    end
           end
  end.

(** The same scan over the reversed string, for
    [strings.TrimRightFunc]: the last rune's bytes come first, last
    byte first. *)
Fixpoint TrimLeftRev (s : string) : string :=
  match s with
  | EmptyString => EmptyString
  | String a s1 =>
      if isSpace1 a then TrimLeftRev s1
      else match s1 with
           | EmptyString => s
           | String b s2 =>
               if isSpace2 b a then TrimLeftRev s2
               else match s2 with
                    | EmptyString => s
                    | String c s3 => if isSpace3 c b a then TrimLeftRev s3 else s
                    end
           end
  end.

Definition TrimRight (s : string) : string :=
  String.rev (TrimLeftRev (String.rev s)).

(** [strings.TrimSpace]. *)
Definition TrimSpace (s : string) : string := TrimRight (TrimLeft s).

(** [bufio.Reader.ReadString('\n')] over the bytes still unread: the
    line with its delimiter, the bytes left, and whether the end of the
    stream was hit before a delimiter ([io.EOF]). *)
Fixpoint ReadString (r : string) : string * string * bool :=
  match r with
  | EmptyString => (EmptyString, EmptyString, true)
  | String a r' =>
      if Ascii.eqb a nl then (String a EmptyString, r', false)
      else let '(line, rest, eof) := ReadString r' in (String a line, rest, eof)
  end.

End GoStrings.
Import GoStrings.

(** ** tiddler.go: the record and its line codec *)

(** A field value, [interface{}] in the source: a string, a byte slice
    (the text of a binary tiddler), an array or a nested map as the JSON
    decoder builds them.  A nested map lists its entries in the order a
    [range] over it yields them. *)
Inductive Value : Type :=
| VString (s : string)
| VBytes (b : string)
| VArray (l : list Value)
| VMap (m : list (string * Value)).

(** [type Tiddler map[string]interface{}] *)
Abbreviation Tiddler := (gmap string Value).

Definition LF : string := String nl EmptyString.

(** [reWhitespaceOnly], the pattern ^\s*$ : every byte is a tab, a line
    feed, a form feed, a carriage return or a space. *)
Definition isReSpace (a : ascii) : bool :=
  let n := nat_of_ascii a in
  Nat.eqb n 9 || Nat.eqb n 10 || Nat.eqb n 12 || Nat.eqb n 13 || Nat.eqb n 32.

Fixpoint reWhitespaceOnly (s : string) : bool :=
  match s with
  | EmptyString => true
  | String a s' => isReSpace a && reWhitespaceOnly s'
  end.

(** [Tiddler.Field]: the string under [name], the empty string when the
    field is absent; the type assertion panics on any other value. *)
Definition Field (t : Tiddler) (name : string) : Res string :=
  match t !! name with
  | Some (VString s) => Ok s
  | Some _ => Panic
  | None => Ok EmptyString
  end.

(** The inner loop of [TiddlerFile.Write] over a nested [fields] map. *)
Fixpoint write_fields (m : list (string * Value)) (buf : string) : Res string :=
  match m with
  | [] => Ok buf
  | (f2, VString v2) :: m' => write_fields m' (buf +:+ f2 +:+ ": " +:+ v2 +:+ LF)
  | (_, _) :: _ => Panic
  end.

(** The loop [for f, v := range t.tid] of [TiddlerFile.Write], over the
    entries in the order [ord] in which the range yields them. *)
Fixpoint write_range (ord : list (string * Value)) (buf : string) : Res string :=
  match ord with
  | [] => Ok buf
  | (f, v) :: ord' =>
      if String.eqb f "fields" then
        match v with
        | VMap m =>
            match write_fields m buf with
            | Ok buf' => write_range ord' buf'
            | r => r
            end
        | _ => Panic
        end
      else if String.eqb f "text" then write_range ord' buf
      else
        match v with
        | VString s => write_range ord' (buf +:+ f +:+ ": " +:+ s +:+ LF)
        | _ => Panic
        end
  end.

(** The buffer [TiddlerFile.Write] builds before it calls the writer:
    the header lines, the separating newline, the text. *)
Definition Write_buf (tid : Tiddler) (ord : list (string * Value)) : Res string :=
  match write_range ord EmptyString with
  | Ok buf =>
      let buf := buf +:+ LF in
      match tid !! "text" with
      | Some (VString txt) => Ok (buf +:+ txt)
      | Some _ => Panic
      | None => Ok buf
      end
  | r => r
  end.

(** An [io.Writer]: what its [Write] answers for the bytes it is given,
    [None] for a nil error. *)
Definition Writer : Type := string -> option string.

(** An [io.WriteCloser]: the writer, and what its [Close] answers. *)
Record WriteCloser : Type := mkWriteCloser {
  wc_write : Writer;
  wc_close : option string
}.

(** [TiddlerFile.Write]; a nil writer is [None]. *)
Definition TiddlerFile_Write (tid : Tiddler) (ord : list (string * Value))
    (w : option Writer) : Res unit :=
  match w with
  | None => Err "writer is nil"
  | Some w =>
      match Write_buf tid ord with
      | Ok buf => match w buf with None => Ok tt | Some e => Err e end
      | Err e => Err e
      | Panic => Panic
      end
  end.

Lemma ReadString_shorter r line rest :
  ReadString r = (line, rest, false) -> String.length rest < String.length r.
Proof.
  revert line rest. induction r as [|a r IH]; intros line rest; simpl.
  - discriminate.
  - destruct (Ascii.eqb a nl).
    + intros [= _ <-]. lia.
    + destruct (ReadString r) as [[l' r'] e'] eqn:E. intros [= _ <- ->].
      specialize (IH _ _ eq_refl). lia.
Qed.

(** A value together with the equation that it is the value, for the
    termination proofs below. *)
Definition inspect {A : Type} (x : A) : { y : A | x = y } := exist _ x eq_refl.

(** One header line of the read loop: the name is the line up to its
    first colon, the value the rest, trimmed.  A line with no colon makes
    [line[:idx]] a slice with bound -1, and Go panics. *)
Definition header_field (line : string) : option (string * string) :=
  match IndexByte line colon with
  | Some idx => Some (slice_to idx line, TrimSpace (slice_from (S idx) line))
  | None => None
  end.

(** The loop of [TiddlerFile.Read] over the bytes [r] still unread.  The
    stream is taken to deliver all its bytes: a read error other than
    [io.EOF] is outside the model. *)
Equations? Read_loop (r : string) (tid : Tiddler) : Res Tiddler
  by wf (String.length r) lt :=
  Read_loop r tid with inspect (ReadString r) := {
    | exist _ (line, b, true) _ =>
        if reWhitespaceOnly line then
          Ok (if Nat.ltb 0 (String.length b) then <["text" := VString b]> tid else tid)
        else
          match header_field line with
          | None => Panic
          | Some (name, value) => Ok (<[name := VString value]> tid)
          end
    | exist _ (line, b, false) E =>
        if reWhitespaceOnly line then
          Ok (if Nat.ltb 0 (String.length b) then <["text" := VString b]> tid else tid)
        else
          match header_field line with
          | None => Panic
          | Some (name, value) => Read_loop b (<[name := VString value]> tid)
          end }.
Proof. eapply ReadString_shorter; eauto. Qed.

(** [TiddlerFile.Read]; a nil reader is [None].  The map [fields] of the
    source stays empty, so the [fields] key is never set. *)
Definition TiddlerFile_Read (r : option string) : Res Tiddler :=
  match r with
  | None => Err "reader is nil"
  | Some r =>
      match Read_loop r ∅ with
      | Ok tid =>
          Ok (match tid !! "revision" with
              | Some _ => tid
              | None => <["revision" := VString "0"]> tid
              end)
      | r => r
      end
  end.

(** The title of the first [title:] line, as [getTiddlerFileTile] cuts
    it out: [line[strings.Index(line, ":")+1:]], trimmed. *)
Definition title_of_line (line : string) : string :=
  TrimSpace (slice_from (match IndexByte line colon with
                         | Some idx => S idx
                         | None => 0
                         end) line).

(** The loop of [getTiddlerFileTile] over the bytes still unread. *)
Equations? title_loop (r : string) : Res string by wf (String.length r) lt :=
  title_loop r with inspect (ReadString r) := {
    | exist _ (line, _, true) _ =>
        if reWhitespaceOnly line then Err "title not found"
        else if HasPrefix line "title:" then
          if String.eqb (title_of_line line) EmptyString then Err EmptyString
          else Ok (title_of_line line)
        else Err "title not found"
    | exist _ (line, b, false) E =>
        if reWhitespaceOnly line then Err "title not found"
        else if HasPrefix line "title:" then
          if String.eqb (title_of_line line) EmptyString then Err EmptyString
          else Ok (title_of_line line)
        else title_loop b }.
Proof. eapply ReadString_shorter; eauto. Qed.

(** [getTiddlerFileTile]; a nil reader is [None]. *)
Definition getTiddlerFileTile (f : option string) : Res string :=
  match f with
  | None => Err "reader is nil"
  | Some r => title_loop r
  end.

(** ** The store layer *)

(** A Go map variable: [None] is the nil map, which reads as empty,
    ignores [delete] and panics on assignment. *)
Definition GoMap (V : Type) : Type := option (gmap string V).

Definition go_lookup {V} (m : GoMap V) (k : string) : option V :=
  match m with
  | Some g => g !! k
  | None => None
  end.

Definition go_assign {V} (m : GoMap V) (k : string) (v : V) : Res (GoMap V) :=
  match m with
  | Some g => Ok (Some (<[k := v]> g))
  | None => Panic
  end.

Definition go_delete {V} (m : GoMap V) (k : string) : GoMap V :=
  match m with
  | Some g => Some (delete k g)
  | None => None
  end.

Definition go_len {V} (m : GoMap V) : nat :=
  match m with
  | Some g => size g
  | None => 0
  end.

(** [reTiddlerFilename], the class of slash, colon and double quote. *)
Definition reTiddlerFilename (a : ascii) : bool :=
  let n := nat_of_ascii a in
  Nat.eqb n 47 || Nat.eqb n 58 || Nat.eqb n 34.

Fixpoint replaceSpecial (s : string) : string :=
  match s with
  | EmptyString => EmptyString
  | String a s' =>
      String (if reTiddlerFilename a then "_"%char else a) (replaceSpecial s')
  end.

Definition tiddlerFilename (title : string) : string :=
  replaceSpecial title +:+ ".tid".

(** [filepath.Join(dir, name)] for a directory that is already clean and
    a name with no separator in it, as [tiddlerFilename] builds them. *)
Definition filepath_Join (dir name : string) : string :=
  if String.eqb dir EmptyString then name else dir +:+ "/" +:+ name.

(** [reBinaryType]: the type ends with one of the binary subtypes. *)
Definition reBinaryType (ty : string) : bool :=
  existsb (HasSuffix ty) ["/pdf"; "/gif"; "/jpeg"; "/png"; "/x-icon"].

(** The calls a store makes to its backend. *)
Inductive BackendCall : Type :=
| BRead (path : string)
| BCreate (path : string)
| BRemove (path : string).

(** The primitives a backend hands to the shared logic.  A reader opens
    a location and delivers its bytes; a writer opens a location for
    writing; [remove] answers [None] for a nil error.  [walk] lists the
    locations the walker hands to its callback, in the order in which the
    pool of workers commits them, or the error of the walker. *)
Record Backend : Type := mkBackend {
  newReader : string -> Res string;
  newWriter : string -> Res WriteCloser;
  remove : string -> option string;
  walk : Res (list string)
}.

(** [writeTiddlerToWriter].  The index and the cache are changed in place
    in the source; here the new maps are returned.  The deferred [Close]
    of the writer runs on every path after the writer was obtained, and
    its error is dropped. *)
Definition writeTiddlerToWriter (t : Tiddler) (ord : list (string * Value))
    (tiddlersDir : string) (index : GoMap string) (cache : GoMap Tiddler)
    (writer : string -> Res WriteCloser)
    : list BackendCall * Res unit * GoMap string * GoMap Tiddler :=
  match Field t "title" with
  | Ok title =>
      let path := filepath_Join tiddlersDir (tiddlerFilename title) in
      match writer path with
      | Ok w =>
          match TiddlerFile_Write t ord (Some (wc_write w)) with
          | Ok _ =>
              match go_assign index title path with
              | Ok index' =>
                  match go_assign cache title t with
                  | Ok cache' => ([BCreate path], Ok tt, index', cache')
                  | _ => ([BCreate path], Panic, index', cache)
                  end
              | _ => ([BCreate path], Panic, index, cache)
              end
          | Err e => ([BCreate path], Err e, index, cache)
          | Panic => ([BCreate path], Panic, index, cache)
          end
      | Err e => ([BCreate path], Err e, index, cache)
      | Panic => ([BCreate path], Panic, index, cache)
      end
  | Err e => ([], Err e, index, cache)
  | Panic => ([], Panic, index, cache)
  end.

(** [readTiddlerFileWithReadCloser], with the locations it opened. *)
Definition readTiddlerFileWithReadCloser (path : string)
    (reader : string -> Res string) : list BackendCall * Res Tiddler :=
  match reader path with
  | Ok f =>
      match TiddlerFile_Read (Some f) with
      | Ok tid =>
          if HasSuffix path ".meta" then
            let nonMetaFilename := TrimSuffix path ".meta" in
            match reader nonMetaFilename with
            | Ok b =>
                ([BRead path; BRead nonMetaFilename],
                 match tid !! "type" with
                 | Some (VString ty) =>
                     if reBinaryType ty then Ok (<["text" := VBytes b]> tid)
                     else Ok (<["text" := VString b]> tid)
                 | _ => Panic
                 end)
            | Err e =>
                ([BRead path; BRead nonMetaFilename],
                 Err ("could not open file '" +:+ nonMetaFilename +:+ "': " +:+ e))
            | Panic => ([BRead path; BRead nonMetaFilename], Panic)
            end
          else ([BRead path], Ok tid)
      | Err e =>
          ([BRead path],
           Err ("could not read file '" +:+ path +:+ "' as tiddler: " +:+ e))
      | Panic => ([BRead path], Panic)
      end
  | Err e => ([BRead path], Err ("could not open file '" +:+ path +:+ "': " +:+ e))
  | Panic => ([BRead path], Panic)
  end.

(** [getTiddlerFileFromStore]. *)
Definition getTiddlerFileFromStore (title tiddlersDir : string)
    (index : GoMap string) (cache : GoMap Tiddler)
    (reader : string -> Res string) : list BackendCall * Res Tiddler :=
  let filename :=
    match go_lookup index title with
    | Some filename => filename
    | None => filepath_Join tiddlersDir (tiddlerFilename title)
    end in
  match go_lookup cache filename with
  | Some tiddler => ([], Ok tiddler)
  | None => readTiddlerFileWithReadCloser filename reader
  end.

(** What the workers of [buildCacheAndIndex] have committed so far: the
    index, the cache, and the errors sent to the log. *)
Record Built : Type := mkBuilt {
  built_index : gmap string string;
  built_cache : gmap string Tiddler;
  built_log : list string
}.

(** One worker of [buildCacheAndIndex] on one location.  After a failed
    read the tiddler is the nil map, which has no title. *)
Definition index_path (reader : string -> Res string) (path : string)
    (acc : Built) : Res Built :=
  match readTiddlerFileWithReadCloser path reader with
  | (_, Ok tiddler) =>
      match tiddler !! "title" with
      | Some (VString title) =>
          Ok (mkBuilt (<[title := path]> (built_index acc))
                      (<[title := tiddler]> (built_cache acc))
                      (built_log acc))
      | Some _ => Panic
      | None => Ok acc
      end
  | (_, Err e) =>
      Ok (mkBuilt (built_index acc) (built_cache acc) (built_log acc ++ [e]))
  | (_, Panic) => Panic
  end.

(** The pool of workers over the locations, in the order in which they
    commit; a panic in a worker ends the process. *)
Fixpoint index_paths (reader : string -> Res string) (paths : list string)
    (acc : Built) : Res Built :=
  match paths with
  | [] => Ok acc
  | path :: paths' =>
      match index_path reader path acc with
      | Ok acc' => index_paths reader paths' acc'
      | r => r
      end
  end.

(** [buildCacheAndIndex]. *)
Definition buildCacheAndIndex (walker : Res (list string))
    (reader : string -> Res string) : Res Built :=
  match walker with
  | Ok paths => index_paths reader paths (mkBuilt ∅ ∅ [])
  | Err e => Err e
  | Panic => Panic
  end.

(** One worker of [getAllTiddlerFilesFromStore] on one location: the
    error of a failed read is logged, and then the title is looked up in
    the nil tiddler, which panics like a tiddler with no title. *)
Definition list_path (reader : string -> Res string) (path : string)
    (tids : list Tiddler) : Res (list Tiddler) :=
  match readTiddlerFileWithReadCloser path reader with
  | (_, Ok tid) =>
      match tid !! "title" with
      | Some _ => Ok (tids ++ [tid])
      | None => Panic
      end
  | (_, Err e) => Panic
  | (_, Panic) => Panic
  end.

Fixpoint list_paths (reader : string -> Res string) (paths : list string)
    (tids : list Tiddler) : Res (list Tiddler) :=
  match paths with
  | [] => Ok tids
  | path :: paths' =>
      match list_path reader path tids with
      | Ok tids' => list_paths reader paths' tids'
      | r => r
      end
  end.

(** [getAllTiddlerFilesFromStore].  The values of a cache that is not
    empty come in the order of the range over it, which Go leaves open;
    the length of a nil map is 0. *)
Definition getAllTiddlerFilesFromStore (cache : GoMap Tiddler)
    (reader : string -> Res string) (walker : Res (list string))
    : Res (list Tiddler) :=
  if Nat.ltb 0 (go_len cache) then
    Ok (match cache with Some g => (map_to_list g).*2 | None => [] end)
  else
    match walker with
    | Ok paths => list_paths reader paths []
    | Err e => Err e
    | Panic => Panic
    end.

(** The state the three stores share: [fileStore], [googleBucketStore]
    and [awsS3Store] differ in their backend only. *)
Record Store : Type := mkStore {
  baseDir : string;
  tiddlersDir : string;
  tiddlerToFile : GoMap string;
  tiddlerCache : GoMap Tiddler
}.

(** [NewFileStore]; the other two constructors build the index and the
    cache by the same call. *)
Definition NewFileStore (be : Backend) (dir : string) (requireIndex : bool)
    : Res Store :=
  let tdir := filepath_Join dir "tiddlers" in
  if requireIndex then
    match buildCacheAndIndex (walk be) (newReader be) with
    | Ok b => Ok (mkStore dir tdir (Some (built_index b)) (Some (built_cache b)))
    | Err e => Err e
    | Panic => Panic
    end
  else Ok (mkStore dir tdir None None).

Definition GetTiddler (be : Backend) (s : Store) (title : string)
    : list BackendCall * Res Tiddler :=
  getTiddlerFileFromStore title (tiddlersDir s) (tiddlerToFile s)
    (tiddlerCache s) (newReader be).

Definition GetAllTiddlers (be : Backend) (s : Store) : Res (list Tiddler) :=
  getAllTiddlerFilesFromStore (tiddlerCache s) (newReader be) (walk be).


(** [DeleteTiddler] of the three stores: the location is
    [s.tiddlerToFile[title]], the empty string for a title with no entry. *)
Definition DeleteTiddler (be : Backend) (s : Store) (title : string)
    : list BackendCall * Res unit * Store :=
  let filename := default EmptyString (go_lookup (tiddlerToFile s) title) in
  match remove be filename with
  | Some e => ([BRemove filename], Err e, s)
  | None =>
      ([BRemove filename], Ok tt,
       mkStore (baseDir s) (tiddlersDir s)
         (go_delete (tiddlerToFile s) title)
         (go_delete (tiddlerCache s) title))
  end.

(** ** Notions the statements use *)

(** A string with no line feed in it. *)
Fixpoint no_nl (s : string) : bool :=
  match s with
  | EmptyString => true
  | String a s' => negb (Ascii.eqb a nl) && no_nl s'
  end.

(** A string with no colon in it. *)
Fixpoint no_colon (s : string) : bool :=
  match s with
  | EmptyString => true
  | String a s' => negb (Ascii.eqb a colon) && no_colon s'
  end.

(** The lines the successive [ReadString] calls deliver: each ends with
    its line feed, but for the last, which is what is left at the end of
    the stream (the empty string after a final line feed). *)
Fixpoint lines (r : string) : list string :=
  match r with
  | EmptyString => [EmptyString]
  | String a r' =>
      if Ascii.eqb a nl then String a EmptyString :: lines r'
      else match lines r' with
           | l :: ls => String a l :: ls
           | [] => [String a EmptyString]
           end
  end.

(** The header lines: those before the first line of white space only. *)
Fixpoint header_lines (ls : list string) : list string :=
  match ls with
  | [] => []
  | l :: ls' => if reWhitespaceOnly l then [] else l :: header_lines ls'
  end.

Definition headers (r : string) : list string := header_lines (lines r).

(** The answer of the title peek, read off the header lines: the first
    line that starts with [title:] decides. *)
Fixpoint first_title (hs : list string) : Res string :=
  match hs with
  | [] => Err "title not found"
  | l :: hs' =>
      if HasPrefix l "title:" then
        if String.eqb (title_of_line l) EmptyString then Err EmptyString
        else Ok (title_of_line l)
      else first_title hs'
  end.

(** What one header line does to the record under construction. *)
Definition add_header (tid : Tiddler) (l : string) : Tiddler :=
  match header_field l with
  | Some (name, value) => <[name := VString value]> tid
  | None => tid
  end.

(** The header line [TiddlerFile.Write] emits for one entry of the range
    over a record of strings; [text] emits none. *)
Definition entry_line (e : string * Value) : string :=
  match e with
  | (f, VString v) =>
      if String.eqb f "text" then EmptyString else f +:+ ": " +:+ v +:+ LF
  | _ => EmptyString
  end.

Fixpoint header_block (ord : list (string * Value)) : string :=
  match ord with
  | [] => EmptyString
  | e :: ord' => entry_line e +:+ header_block ord'
  end.

(** The entry as the read loop stores it back. *)
Definition put_entry (tid : Tiddler) (e : string * Value) : Tiddler :=
  if String.eqb e.1 "text" then tid else <[e.1 := e.2]> tid.

(** A field the line encoding carries unchanged: a string value; not the
    [fields] key; a [text] that is not empty; any other name without
    colon or line feed, with a value without line feed and without
    white space at either end. *)
Definition safe_entry (f : string) (x : Value) : bool :=
  match x with
  | VString v =>
      negb (String.eqb f "fields")
      && (if String.eqb f "text" then negb (String.eqb v EmptyString)
          else no_nl f && no_colon f && no_nl v && String.eqb (TrimSpace v) v)
  | _ => false
  end.

Definition roundtrip_safe (t : Tiddler) : Prop :=
  map_Forall (fun f x => safe_entry f x = true) t.

(** The record [TiddlerFile.Read] hands back for the fields [t]: the
    [revision] is set to "0" when there is none. *)
Definition with_revision (t : Tiddler) : Tiddler :=
  match t !! "revision" with
  | Some _ => t
  | None => <["revision" := VString "0"]> t
  end.



(** The location a delete would use if it resolved a title the way
    [getTiddlerFileFromStore] does: the index first, the canonical file
    name for a title with no entry. *)
Definition location_with_fallback (s : Store) (title : string) : string :=
  match go_lookup (tiddlerToFile s) title with
  | Some filename => filename
  | None => filepath_Join (tiddlersDir s) (tiddlerFilename title)
  end.

(** The primitives of [fileStore] over a directory tree held in memory:
    [os.Open], [os.Create] and [os.Remove] on the files [files], and a
    walk that lists [listing]. *)
Definition file_backend (files : gmap string string) (listing : list string)
    : Backend :=
  {| newReader filename :=
       match files !! filename with
       | Some content => Ok content
       | None =>
           Err ("could not open file '" +:+ filename +:+ "': open "
                +:+ filename +:+ ": no such file or directory")
       end;
     newWriter _ := Ok (mkWriteCloser (fun _ => None) None);
     remove filename :=
       match files !! filename with
       | Some _ => None
       | None => Some ("remove " +:+ filename +:+ ": no such file or directory")
       end;
     walk := Ok listing |}.

(** A wiki of one tiddler, [A], stored under its canonical name. *)
Definition wiki_A : gmap string string :=
  {[ "wiki/tiddlers/A.tid" := "title: A" +:+ LF +:+ LF +:+ "hello" ]}.

Definition tiddler_A : Tiddler :=
  <["title" := VString "A"]>
    (<["text" := VString "hello"]> (<["revision" := VString "0"]> ∅)).

(** A wiki with a picture and its sidecar, and a sidecar with no type. *)
Definition png_bytes : string :=
  String (ascii_of_nat 137) ("PNG" +:+ String (ascii_of_nat 255) EmptyString).

Definition wiki_meta : gmap string string :=
  {[ "wiki/tiddlers/pic.png.meta" :=
       "title: pic.png" +:+ LF +:+ "type: image/png" +:+ LF;
     "wiki/tiddlers/pic.png" := png_bytes;
     "wiki/tiddlers/note.txt.meta" :=
       "title: note.txt" +:+ LF +:+ "type: text/plain" +:+ LF;
     "wiki/tiddlers/note.txt" := "a note";
     "wiki/tiddlers/bare.txt.meta" := "title: bare.txt" +:+ LF;
     "wiki/tiddlers/bare.txt" := "no type" ]}.


(** The store [NewFileStore] builds over [wiki_A] with the index. *)
Definition store_A : Store :=
  mkStore "wiki" "wiki/tiddlers"
    (Some {[ "A" := "wiki/tiddlers/A.tid" ]}) (Some {[ "A" := tiddler_A ]}).

(** A store with an allocated, empty index over a directory that holds
    the file of [A] all the same (written by another process). *)
Definition store_unindexed : Store :=
  mkStore "wiki" "wiki/tiddlers" (Some ∅) (Some ∅).

(** A store opened without the index, as the handler that manages the
    wiki folders opens it. *)
Definition store_light : Store := mkStore "wiki" "wiki/tiddlers" None None.

(** A wiki with a file a line of which has no colon. *)
Definition wiki_malformed : gmap string string :=
  {[ "wiki/tiddlers/A.tid" := "title: A" +:+ LF +:+ LF +:+ "hello";
     "wiki/tiddlers/bad.tid" := "no colon on this line" +:+ LF ]}.

(** A record the line encoding carries unchanged, and one it does not:
    its title starts with a blank. *)
Definition tiddler_tagged : Tiddler :=
  <["title" := VString "My Tiddler"]>
    (<["tags" := VString "one [[two words]]"]>
       (<["text" := VString "hello"]> ∅)).

Definition tiddler_blank_title : Tiddler := <["title" := VString " A"]> ∅.

(** More records of strings the line encoding does not carry: an empty
    text, a value of two lines, a name with a colon, a [fields] key. *)
Definition tiddler_empty_text : Tiddler :=
  <["title" := VString "A"]> (<["text" := VString EmptyString]> ∅).

Definition tiddler_two_lines : Tiddler :=
  <["caption" := VString ("one" +:+ LF +:+ "two")]> ∅.

Definition tiddler_colon_name : Tiddler := <["a:b" := VString "c"]> ∅.

Definition tiddler_fields_string : Tiddler := <["fields" := VString "x"]> ∅.

(** ** More of the store layer *)

(** [isTiddlerFile]: not a hidden path, a [.tid] or [.meta] file, and not
    the one excluded plugin file. *)
Definition isTiddlerFile (path : string) : bool :=
  if HasPrefix path "."
     || (negb (HasSuffix path ".tid") && negb (HasSuffix path ".meta"))
  then false
  else if HasSuffix path "$__plugins_tobibeer_rate_styles_imgfix.tid" then false
  else true.

(** ** More notions the statements use *)

(** A header line as it stands in a stream: its bytes and the line feed. *)
Fixpoint join_lines (hs : list string) : string :=
  match hs with
  | [] => EmptyString
  | x :: hs' => x +:+ LF +:+ join_lines hs'
  end.

(** Every value of the record is a string. *)
Definition all_strings (t : Tiddler) : Prop :=
  map_Forall (fun (_ : string) (x : Value) => exists v, x = VString v) t.

(** Some byte of the string is a slash, a colon or a double quote. *)
Fixpoint has_special (s : string) : bool :=
  match s with
  | EmptyString => false
  | String a s' => reTiddlerFilename a || has_special s'
  end.

(** The error a failed read of a location sends to the log of the build. *)
Definition read_error (reader : string -> Res string) (path : string)
    : option string :=
  match (readTiddlerFileWithReadCloser path reader).2 with
  | Err e => Some e
  | _ => None
  end.



(** A line as [ReadString] delivers it: no line feed but at its end. *)
Fixpoint one_line (l : string) : bool :=
  match l with
  | EmptyString => true
  | String a l' =>
      if Ascii.eqb a nl then String.eqb l' EmptyString else one_line l'
  end.

(** A field as the read loop stores it: a string; and unless it is the
    text, a name with no colon and no line feed in it and a value of one
    line with no white space at either end. *)
Definition decoded_entry (f : string) (x : Value) : Prop :=
  exists v, x = VString v
    /\ (f <> "text" ->
        no_nl f = true /\ no_colon f = true /\ no_nl v = true /\ TrimSpace v = v).

(** A field [TiddlerFile.Write] can put into its buffer: under [fields]
    a nested map of strings, under any other name a string. *)
Definition is_string (x : Value) : bool :=
  match x with
  | VString _ => true
  | _ => false
  end.

Definition encodable (f : string) (x : Value) : bool :=
  if String.eqb f "fields" then
    match x with
    | VMap m => forallb (fun e => is_string e.2) m
    | _ => false
    end
  else is_string x.

(** The record of a picture as the sidecar read builds it: the text is
    the bytes of the picture. *)
Definition tiddler_picture : Tiddler :=
  <["text" := VBytes png_bytes]>
    (<["title" := VString "pic.png"]> (<["type" := VString "image/png"]> ∅)).


(** ** The template list of the file store *)

(** [strings.Split(s, sep)] for a one-byte separator: the pieces between
    the separators, one more than there are separators. *)
Fixpoint Split (s : string) (sep : ascii) : list string :=
  match s with
  | EmptyString => [EmptyString]
  | String a s' =>
      if Ascii.eqb a sep then EmptyString :: Split s' sep
      else match Split s' sep with
           | p :: ps => String a p :: ps
           | [] => [String a EmptyString]
           end
  end.

(** The loop of [GetWikiTemplateList] over a description file: every
    line [ReadString] delivers goes to the buffer, up to the end of the
    stream.  The stream is taken to deliver all its bytes. *)
Equations? description_loop (r : string) (buf : string) : string
  by wf (String.length r) lt :=
  description_loop r buf with inspect (ReadString r) := {
    | exist _ (line, _, true) _ => buf +:+ line
    | exist _ (line, b, false) E => description_loop b (buf +:+ line) }.
Proof. eapply ReadString_shorter; eauto. Qed.

(** An entry of [os.ReadDir]: its name, and whether it is a directory. *)
Abbreviation DirEntry := (string * bool)%type.

(** The map [templates]: for a template name the two strings of its
    slice, the file and the description. *)
Abbreviation Templates := (gmap string (string * string)).

Definition dot : ascii := "."%char.

(** The loop of [GetWikiTemplateList] over the entries of the folder.
    [parts[1]] of a name with no dot is out of range, and Go panics. *)
Fixpoint template_files (path : string) (open : string -> Res string)
    (files : list DirEntry) (templates : Templates) : Res Templates :=
  match files with
  | [] => Ok templates
  | (filename, isDir) :: files' =>
      if (isDir : bool) then template_files path open files' templates
      else
        let parts := Split filename dot in
        let templateName := hd EmptyString parts in
        let values :=
          default (EmptyString, EmptyString) (templates !! templateName) in
        match parts !! 1 with
        | None => Panic
        | Some ext =>
            if String.eqb ext "txt" then
              match open (filepath_Join path filename) with
              | Ok f =>
                  template_files path open files'
                    (<[templateName := (values.1, description_loop f EmptyString)]>
                       templates)
              | Err e =>
                  Err ("could not open file '" +:+ filename +:+ "': " +:+ e)
              | Panic => Panic
              end
            else
              template_files path open files'
                (<[templateName := (filename, values.2)]> templates)
        end
  end.

(** A row of the answer: the template name, the file, the description. *)
Definition Row : Type := string * string * string.

Definition row_name (r : Row) : string := r.1.1.

Definition template_row (e : string * (string * string)) : Row :=
  (e.1, e.2.1, e.2.2).

(** [sort.SliceStable] by the template name: a stable sort by the
    comparison [templateValues[i][0] < templateValues[j][0]], written as
    the insertion sort that keeps equal rows in their order. *)
Fixpoint insert_row (r : Row) (l : list Row) : list Row :=
  match l with
  | [] => [r]
  | x :: l' =>
      if String.ltb (row_name x) (row_name r) then x :: insert_row r l'
      else r :: x :: l'
  end.

Definition SliceStable (l : list Row) : list Row := foldr insert_row [] l.

(** [fileStore.GetWikiTemplateList].  [readDir] is what [os.ReadDir]
    answers for the folder, [open] what [os.Open] delivers for a file,
    and [range] the order in which the range over the map yields its
    entries, which Go leaves open. *)
Definition GetWikiTemplateList (readDir : Res (list DirEntry)) (path : string)
    (open : string -> Res string)
    (range : Templates -> list (string * (string * string)))
    : Res (list Row) :=
  match readDir with
  | Ok files =>
      match template_files path open files ∅ with
      | Ok templates => Ok (SliceStable (template_row <$> range templates))
      | Err e => Err e
      | Panic => Panic
      end
  | _ => Panic
  end.

(** The template name of a file name, and its second piece. *)
Definition template_name (filename : string) : string :=
  hd EmptyString (Split filename dot).

Definition second_piece (filename : string) : option string :=
  Split filename dot !! 1.

(** The order of the rows: by their names, as Go compares strings. *)
Definition name_lt (r1 r2 : Row) : Prop :=
  String.ltb (row_name r1) (row_name r2) = true.

(** A range over a map yields each entry once, in some order. *)
Definition range_ok (range : Templates -> list (string * (string * string)))
    : Prop :=
  forall m, range m ≡ₚ map_to_list m.

(** A templates folder: two templates, one with a description, and a
    folder beside them. *)
Definition templates_dir : list DirEntry :=
  [("blog.html", false); ("blog.txt", false); ("archive", true);
   ("empty.html", false)].

Definition templates_open (p : string) : Res string :=
  if String.eqb p "templates/blog.txt" then Ok ("A blog." +:+ LF +:+ "Two lines.")
  else Err "no such file or directory".

(** ** The folders of a storage location *)

(** The entries of one folder: a name, and whether it is a directory. *)
Abbreviation Folder := (gmap string bool).

(** The three flags of [CreateRequiredFolders] after one more entry of
    the listing. *)
Definition required_flags (flags : bool * bool * bool) (file : DirEntry)
    : bool * bool * bool :=
  let '(wikisDirExists, templatesDirExists, trashDirExists) := flags in
  if file.2 then
    if String.eqb file.1 "wikis" then (true, templatesDirExists, trashDirExists)
    else if String.eqb file.1 "templates" then (wikisDirExists, true, trashDirExists)
    else if String.eqb file.1 "trash" then (wikisDirExists, templatesDirExists, true)
    else flags
  else flags.

(** [os.Mkdir] in a folder: a name that is taken is refused, whatever
    it names; [denied] holds the other refusals of the system. *)
Definition Mkdir (denied : string -> option string) (path : string)
    (dir : Folder) (name : string) : Folder * option string :=
  match dir !! name with
  | Some _ =>
      (dir, Some ("mkdir " +:+ filepath_Join path name +:+ ": file exists"))
  | None =>
      match denied name with
      | Some e => (dir, Some e)
      | None => (<[name := true]> dir, None)
      end
  end.

(** [fileStore.CreateRequiredFolders] on a folder that [os.ReadDir]
    can list: the folder after the call, and the error. *)
Definition CreateRequiredFolders (denied : string -> option string)
    (path : string) (dir : Folder) : Folder * option string :=
  let '(wikisDirExists, templatesDirExists, trashDirExists) :=
    foldl required_flags (false, false, false) (map_to_list dir) in
  let '(dir1, err1) :=
    if wikisDirExists then (dir, None) else Mkdir denied path dir "wikis" in
  match err1 with
  | Some e => (dir1, Some e)
  | None =>
      let '(dir2, err2) :=
        if templatesDirExists then (dir1, None)
        else Mkdir denied path dir1 "templates" in
      match err2 with
      | Some e => (dir2, Some e)
      | None =>
          if trashDirExists then (dir2, None)
          else Mkdir denied path dir2 "trash"
      end
  end.

(** One of the three steps: the folder is made unless the listing held
    a directory of that name. *)
Definition ensure_dir (denied : string -> option string) (path : string)
    (listed : Folder) (dir : Folder) (name : string) : Folder * option string :=
  if bool_decide (listed !! name = Some true) then (dir, None)
  else Mkdir denied path dir name.

(** The listing holds a directory of that name. *)
Definition has_dir (name : string) (l : list DirEntry) : bool :=
  existsb (fun e : DirEntry => e.2 && String.eqb e.1 name) l.

(** The three names, in the order in which they are made. *)
Definition required_folders : list string := ["wikis"; "templates"; "trash"].

(** ** The payload of a PUT *)

(** [strings.Join]. *)
Fixpoint Join (l : list string) (sep : string) : string :=
  match l with
  | [] => EmptyString
  | [x] => x
  | x :: l' => x +:+ sep +:+ Join l' sep
  end.

Definition space : ascii := " "%char.

(** One tag of the array of a payload: a tag of several words goes
    between double square brackets. *)
Definition bracket_tag (t : string) : string :=
  if Nat.ltb 1 (length (Split t space)) then "[[" +:+ t +:+ "]]" else t.

(** The loop of [putTiddler] over the array of tags. *)
Fixpoint putTiddler_tag_loop (l : list Value) (tags : list string)
    : Res (list string) :=
  match l with
  | [] => Ok tags
  | VString t :: l' => putTiddler_tag_loop l' (tags ++ [bracket_tag t])
  | _ :: _ => Panic
  end.

(** The tags of the payload of [putTiddler]: an array becomes one
    string; anything else stays. *)
Definition putTiddler_tags (newTiddler : Tiddler) : Res Tiddler :=
  match newTiddler !! "tags" with
  | Some (VArray l) =>
      match putTiddler_tag_loop l [] with
      | Ok tags => Ok (<["tags" := VString (Join tags " ")]> newTiddler)
      | Err e => Err e
      | Panic => Panic
      end
  | _ => Ok newTiddler
  end.

(** The [fields] of the payload of [putTiddler]: the entries of the
    nested map are moved to the record, in the order of the range over
    the nested map, and the key is deleted. *)
Definition putTiddler_fields (newTiddler : Tiddler) : Res Tiddler :=
  match newTiddler !! "fields" with
  | Some (VMap m) =>
      Ok (delete "fields"
            (foldl (fun (t : Tiddler) (e : string * Value) => <[e.1 := e.2]> t)
               newTiddler m))
  | Some _ => Panic
  | None => Ok newTiddler
  end.

(** What [putTiddler] makes of the decoded payload before it looks at
    the store. *)
Definition putTiddler_payload (newTiddler : Tiddler) : Res Tiddler :=
  match putTiddler_tags newTiddler with
  | Ok t => putTiddler_fields t
  | r => r
  end.

(** A field of a payload as the client sends it: the tags are a string
    or an array of strings, the [fields] a nested map of strings, any
    other value a string. *)
Definition payload_entry (f : string) (x : Value) : bool :=
  if String.eqb f "tags" then
    match x with
    | VString _ => true
    | VArray l => forallb is_string l
    | _ => false
    end
  else encodable f x.

(** A payload with an array of tags and a nested map. *)
Definition payload_A : Tiddler :=
  <["title" := VString "A"]>
    (<["text" := VString "hello"]>
       (<["tags" := VArray [VString "one"; VString "two words"]]>
          (<["fields" := VMap [("caption", VString "An A")]]> ∅))).

(** ** The walks of the stores *)

(** The locations [fileStore.walk] hands to its callback, for the
    entries [fs.WalkDir] visits below the tiddlers folder: a path
    relative to that folder, and whether it is a directory.  An entry
    the walk cannot read makes the source panic; the entries here are
    the ones it can. *)
Definition fileStore_walk (tiddlersDir : string) (entries : list DirEntry)
    : list string :=
  omap (fun e : DirEntry =>
          if e.2 || negb (isTiddlerFile e.1) then None
          else Some (filepath_Join tiddlersDir e.1))
       entries.

(** The keys the walks of [googleBucketStore] and [awsS3Store] hand to
    their callback, for the keys the bucket lists (the pages of the
    google store may come in another order). *)
Definition bucket_walk (tiddlersDir : string) (keys : list string)
    : list string :=
  List.filter (fun key => HasPrefix key tiddlersDir && isTiddlerFile key) keys.

(** The file name of the one plugin the walks leave out, less [.tid]. *)
Definition excluded_plugin : string := "$__plugins_tobibeer_rate_styles_imgfix".

(** ** The skinny list *)

(** [strings.Contains]. *)
Fixpoint Contains (s substr : string) : bool :=
  HasPrefix s substr
  || match s with
     | EmptyString => false
     | String _ s' => Contains s' substr
     end.

Definition macro_tag : string := "$:/tags/Macro".

(** The loop of [getSkinnyTiddlerList] over an array of tags: the text
    is kept as soon as one tag does not hold the macro tag. *)
Fixpoint keeptext_array (l : list Value) : Res bool :=
  match l with
  | [] => Ok false
  | VString t :: l' =>
      if negb (Contains t macro_tag) then Ok true else keeptext_array l'
  | _ :: _ => Panic
  end.

(** [keeptext] for one tiddler: the type switch on its tags.  A value
    that is neither an array nor a string fails the assertion
    [tagsRaw.(string)]. *)
Definition keeptext_of (tid : Tiddler) : Res bool :=
  match tid !! "tags" with
  | None => Ok false
  | Some (VArray l) => keeptext_array l
  | Some (VString s) => Ok (Contains s macro_tag)
  | Some _ => Panic
  end.

(** The copy of the fields into the skinny tiddler: every field but the
    text, and the text too when it is kept. *)
Definition copy_fields (tid : Tiddler) (keeptext : bool) : Tiddler :=
  filter (fun e : string * Value => ~ (e.1 = "text" /\ keeptext = false)) tid.

(** The loop of [getSkinnyTiddlerList] over the tiddlers of the store. *)
Fixpoint skinny_loop (tids : list Tiddler) (skinny : list Tiddler)
    : Res (list Tiddler) :=
  match tids with
  | [] => Ok skinny
  | tid :: tids' =>
      match tid !! "title" with
      | Some (VString title) =>
          if HasPrefix title "$:/" then skinny_loop tids' skinny
          else
            match keeptext_of tid with
            | Ok keeptext =>
                skinny_loop tids' (skinny ++ [copy_fields tid keeptext])
            | Err e => Err e
            | Panic => Panic
            end
      | _ => Panic
      end
  end.

(** The list [getSkinnyTiddlerList] renders: the one the handler has
    cached, or else the one made of what [GetAllTiddlers] answers. *)
Definition getSkinnyTiddlerList (cached : list Tiddler)
    (all : Res (list Tiddler)) : Res (list Tiddler) :=
  if Nat.leb (length cached) 0 then
    match all with
    | Ok tids => skinny_loop tids []
    | Err e => Err ("could not read tiddlers from store: " +:+ e)
    | Panic => Panic
    end
  else Ok cached.

(** A tiddler of the system: its title starts with [$:/]. *)
Definition is_system (tid : Tiddler) : bool :=
  match tid !! "title" with
  | Some (VString title) => HasPrefix title "$:/"
  | _ => false
  end.

(** A skinny tiddler of a stored one: the same fields, the text apart,
    which is there only for a tiddler whose tags hold the macro tag. *)
Definition skinny_of (tid sk : Tiddler) : Prop :=
  (forall k, k <> "text" -> sk !! k = tid !! k)
  /\ (sk !! "text" = None \/ sk !! "text" = tid !! "text")
  /\ (forall s, tid !! "tags" = Some (VString s) ->
        sk !! "text" = if Contains s macro_tag then tid !! "text" else None)
  /\ (tid !! "tags" = None -> sk !! "text" = None).


Definition tiddler_macro : Tiddler :=
  <["title" := VString "M"]>
    (<["tags" := VString "$:/tags/Macro"]> (<["text" := VString "\define m()"]> ∅)).

Definition tiddler_system : Tiddler :=
  <["title" := VString "$:/StoryList"]> (<["text" := VString "x"]> ∅).

(** ** Who may read and write *)

(** [Credentials]: the passwords, and the two lists, each of which can
    be the nil slice. *)
Record Credentials : Type := mkCredentials {
  UserPasswordsClearText : gmap string string;
  Readers : option (list string);
  Writers : option (list string)
}.

Record authContext : Type := mkAuthContext {
  Username : string;
  CanBeAnonymous : bool;
  WritingAllowed : bool
}.

Definition AuthAnonUsername : string := "GUEST".

Definition authTokenAuthenticated : string := "(authenticated)".

(** [Credentials.userCanWrite]. *)
Definition userCanWrite (c : Credentials) (user : string)
    (isAuthenticated : bool) : bool :=
  match Writers c with
  | None => true
  | Some [] => true
  | Some writers =>
      existsb (fun r => String.eqb r user && isAuthenticated) writers
  end.

(** What a request brings: the user and the password of its basic
    authentication header, if it has one, and the path of its URL. *)
Record Request : Type := mkRequest {
  BasicAuth : option (string * string);
  URLPath : string
}.

(** Whether the request is authenticated: the user has a password, and
    it is the one sent. *)
Definition authenticated_user (c : Credentials) (r : Request) : option string :=
  match BasicAuth r with
  | Some (user, pass) =>
      match UserPasswordsClearText c !! user with
      | Some credPass => if String.eqb pass credPass then Some user else None
      | None => None
      end
  | None => None
  end.

(** [basicAuthCtx]; [None] for the answer [false], on which the server
    replies that the request is not authorized. *)
Definition basicAuthCtx (r : Request) (c : Credentials) : option authContext :=
  let auth :=
    match Writers c, Readers c with
    | None, _ => mkAuthContext AuthAnonUsername true true
    | Some _, None => mkAuthContext AuthAnonUsername true false
    | Some _, Some _ => mkAuthContext AuthAnonUsername false false
    end in
  match authenticated_user c r with
  | Some user => Some (mkAuthContext user false (userCanWrite c user true))
  | None =>
      if negb (String.eqb (URLPath r) "/login-basic") && bool_decide (Readers c <> None)
      then None
      else Some auth
  end.

(** One of the two lists as [creds] makes it from its argument of the
    command line; [users] are the users of the credentials file, in the
    order of the range over the passwords. *)
Definition creds_list (arg : string) (users : list string) : option (list string) :=
  if Contains arg "," then Some (Split arg ","%char)
  else if String.eqb arg authTokenAuthenticated then Some users
  else None.

(** A request with the right password of [alice], and one with none. *)
Definition passwords_A : gmap string string := {[ "alice" := "secret" ]}.

Definition request_alice : Request := mkRequest (Some ("alice", "secret")) "/wiki".

Definition request_anonymous : Request := mkRequest None "/wiki".

(** * Properties *)

(** ** Strings *)

Lemma app_nil_l (s : string) : EmptyString +:+ s = s.
Proof. reflexivity. Qed.

Lemma app_cons (a : ascii) (s t : string) :
  String a s +:+ t = String a (s +:+ t).
Proof. reflexivity. Qed.

Lemma app_nil_r (s : string) : s +:+ EmptyString = s.
Proof. induction s as [|a s IH]; [done|]. by rewrite app_cons, IH. Qed.

Lemma app_assoc (s t u : string) : (s +:+ t) +:+ u = s +:+ t +:+ u.
Proof. induction s as [|a s IH]; [done|]. by rewrite !app_cons, IH. Qed.


Lemma ReadString_line (l rest : string) :
  no_nl l = true ->
  ReadString (l +:+ LF +:+ rest) = (l +:+ LF, rest, false).
Proof.
  induction l as [|a l IH]; intros H.
  - reflexivity.
  - simpl in H. apply andb_true_iff in H as [Ha Hl].
    rewrite !app_cons. simpl.
    destruct (Ascii.eqb a nl); [done|]. by rewrite (IH Hl).
Qed.




(** ** The two read loops, one step at a time *)

Lemma Read_loop_step (r : string) (tid : Tiddler) :
  Read_loop r tid =
  let '(line, b, eof) := ReadString r in
  if reWhitespaceOnly line then
    Ok (if Nat.ltb 0 (String.length b) then <["text" := VString b]> tid else tid)
  else
    match header_field line with
    | None => Panic
    | Some (name, value) =>
        if (eof : bool) then Ok (<[name := VString value]> tid)
        else Read_loop b (<[name := VString value]> tid)
    end.
Proof.
  funelim (Read_loop r tid);
    match goal with E : ReadString _ = _ |- _ => rewrite E end;
    simpl; try reflexivity.
  all: destruct (reWhitespaceOnly line); [done|];
    destruct (header_field line) as [[??]|]; done.
Qed.

Lemma title_loop_step (r : string) :
  title_loop r =
  let '(line, b, eof) := ReadString r in
  if reWhitespaceOnly line then Err "title not found"
  else if HasPrefix line "title:" then
    if String.eqb (title_of_line line) EmptyString then Err EmptyString
    else Ok (title_of_line line)
  else if (eof : bool) then Err "title not found" else title_loop b.
Proof.
  funelim (title_loop r);
    match goal with E : ReadString _ = _ |- _ => rewrite E end;
    simpl; reflexivity.
Qed.

(** ** The lines of a stream *)

Lemma lines_ReadString (r : string) :
  lines r =
  let '(line, b, eof) := ReadString r in
  line :: (if (eof : bool) then [] else lines b).
Proof.
  induction r as [|a r IH]; [done|]. simpl.
  destruct (Ascii.eqb a nl); [done|].
  rewrite IH. by destruct (ReadString r) as [[l b] e].
Qed.


(** ** The title peek *)

Lemma string_length_ind (P : string -> Prop) :
  (forall r, (forall r', String.length r' < String.length r -> P r') -> P r) ->
  forall r, P r.
Proof.
  intros step r. remember (String.length r) as n eqn:Hn.
  revert r Hn. induction n as [n IH] using lt_wf_ind.
  intros r ->. apply step. intros r' Hlt. by eapply IH.
Qed.

Lemma title_loop_headers (r : string) : title_loop r = first_title (headers r).
Proof.
  induction r as [r IH] using string_length_ind.
  rewrite title_loop_step. unfold headers. rewrite lines_ReadString.
  destruct (ReadString r) as [[line b] eof] eqn:E. cbn [header_lines].
  destruct (reWhitespaceOnly line); [done|]. cbn [first_title].
  destruct (HasPrefix line "title:"); [done|].
  destruct eof; [done|].
  apply IH. by eapply ReadString_shorter.
Qed.

Lemma first_title_none (hs : list string) :
  Forall (fun l => HasPrefix l "title:" = false) hs ->
  first_title hs = Err "title not found".
Proof.
  induction 1 as [|l hs Hl _ IH]; [done|]. cbn [first_title]. by rewrite Hl.
Qed.

Lemma first_title_skip (pre hs : list string) :
  Forall (fun l => HasPrefix l "title:" = false) pre ->
  first_title (pre ++ hs) = first_title hs.
Proof.
  induction 1 as [|l pre Hl _ IH]; [done|].
  rewrite <- app_comm_cons. cbn [first_title]. by rewrite Hl.
Qed.

Lemma title_of_line_prefix (v : string) :
  title_of_line ("title:" +:+ v) = TrimSpace v.
Proof. reflexivity. Qed.

Lemma HasPrefix_app (p v : string) : HasPrefix (p +:+ v) p = true.
Proof.
  induction p as [|a p IH]; [done|]. rewrite app_cons. simpl.
  by rewrite Ascii.eqb_refl.
Qed.


(** C9. The title peek reads the header lines only.  An input whose first
    line is [title: Foo] gives "Foo"; more generally the first header
    line that starts with [title:] gives its trimmed value.  With no such
    line before the blank line or the end of the stream the peek fails
    with the error "title not found"; with such a line whose value is
    empty it fails with the error of the empty message. *)
Theorem title_peek_contract :
  (forall rest : string,
      getTiddlerFileTile (Some ("title: Foo" +:+ LF +:+ rest)) = Ok "Foo")
  /\ (forall (r : string) (pre : list string) (v : string) (post : list string),
        headers r = pre ++ ("title:" +:+ v) :: post ->
        Forall (fun l => HasPrefix l "title:" = false) pre ->
        TrimSpace v <> EmptyString ->
        getTiddlerFileTile (Some r) = Ok (TrimSpace v))
  /\ (forall r : string,
        Forall (fun l => HasPrefix l "title:" = false) (headers r) ->
        getTiddlerFileTile (Some r) = Err "title not found")
  /\ (forall (r : string) (pre : list string) (v : string) (post : list string),
        headers r = pre ++ ("title:" +:+ v) :: post ->
        Forall (fun l => HasPrefix l "title:" = false) pre ->
        TrimSpace v = EmptyString ->
        getTiddlerFileTile (Some r) = Err EmptyString).
Proof.
  split; [|split; [|split]].
  - intros rest. cbn [getTiddlerFileTile]. rewrite title_loop_step.
    reflexivity.
  - intros r pre v post Hh Hpre Hv. cbn [getTiddlerFileTile].
    rewrite title_loop_headers, Hh, first_title_skip by done.
    cbn [first_title]. rewrite (HasPrefix_app "title:" v), title_of_line_prefix.
    destruct (String.eqb_spec (TrimSpace v) EmptyString); done.
  - intros r Hr. cbn [getTiddlerFileTile].
    by rewrite title_loop_headers, first_title_none.
  - intros r pre v post Hh Hpre Hv. cbn [getTiddlerFileTile].
    rewrite title_loop_headers, Hh, first_title_skip by done.
    cbn [first_title]. rewrite (HasPrefix_app "title:" v), title_of_line_prefix.
    by rewrite Hv.
Qed.

Lemma title_peek_contract_witness :
  getTiddlerFileTile
    (Some ("created: 1" +:+ LF +:+ "title:  Bar " +:+ LF +:+ LF +:+ "body")) = Ok "Bar"
  /\ getTiddlerFileTile
       (Some ("created: 1" +:+ LF +:+ LF +:+ "title: X")) = Err "title not found"
  /\ getTiddlerFileTile (Some ("title:   " +:+ LF +:+ "x: y")) = Err EmptyString.
Proof.
  destruct title_peek_contract as (_ & Hfound & Hnone & Hempty).
  split; [|split].
  - apply (Hfound _ ["created: 1" +:+ LF] ("  Bar " +:+ LF) []).
    + reflexivity.
    + repeat constructor.
    + vm_compute. discriminate.
  - apply Hnone. repeat constructor.
  - apply (Hempty _ [] ("   " +:+ LF) ["x: y"]).
    + reflexivity.
    + constructor.
    + reflexivity.
Defined.

(** ** The read loop *)

Lemma isReSpace_colon (a : ascii) : Ascii.eqb a colon = true -> isReSpace a = false.
Proof. intros H. apply Ascii.eqb_eq in H. by subst a. Qed.

Lemma colon_not_whitespace (l : string) :
  IndexByte l colon <> None -> reWhitespaceOnly l = false.
Proof.
  induction l as [|a l IH]; [done|]. simpl.
  destruct (Ascii.eqb a colon) eqn:Ha.
  - intros _. by rewrite (isReSpace_colon a Ha).
  - intros H. rewrite IH; [by rewrite andb_false_r|].
    by destruct (IndexByte l colon).
Qed.

(** C8. An input whose first line is not blank and has no colon makes
    [TiddlerFile.Read] panic (the slice [line[:idx]] with [idx] = -1): the
    decoder returns no error there, and is not total. *)
Theorem Read_panics_without_colon (r : string) :
  reWhitespaceOnly (ReadString r).1.1 = false ->
  IndexByte (ReadString r).1.1 colon = None ->
  TiddlerFile_Read (Some r) = Panic.
Proof.
  intros Hws Hidx. cbn [TiddlerFile_Read]. rewrite Read_loop_step.
  destruct (ReadString r) as [[line b] eof]. cbn [fst] in *.
  rewrite Hws. unfold header_field. by rewrite Hidx.
Qed.

Lemma Read_panics_without_colon_witness :
  TiddlerFile_Read (Some ("no colon here" +:+ LF +:+ "title: A" +:+ LF)) = Panic.
Proof. apply Read_panics_without_colon; reflexivity. Defined.

Lemma Read_loop_headers (r : string) (tid : Tiddler) :
  Forall (fun l => IndexByte l colon <> None) (headers r) ->
  exists tid', Read_loop r tid = Ok tid' /\
    forall k, k <> "text" -> tid' !! k = foldl add_header tid (headers r) !! k.
Proof.
  revert tid. induction r as [r IH] using string_length_ind. intros tid.
  rewrite Read_loop_step. unfold headers. rewrite lines_ReadString.
  destruct (ReadString r) as [[line b] eof] eqn:E. cbn [header_lines].
  destruct (reWhitespaceOnly line).
  - intros _. eexists; split; [done|]. intros k Hk. cbn [foldl].
    destruct (0 <? String.length b); [|done]. by rewrite lookup_insert_ne.
  - intros Hall. apply Forall_cons in Hall as [Hline Hrest].
    cbn [foldl]. unfold add_header at 2. unfold header_field in *.
    destruct (IndexByte line colon) as [idx|]; [|done].
    destruct eof.
    + eexists; split; [done|]. done.
    + apply IH; [by eapply ReadString_shorter | done].
Qed.

(** ** The default revision *)

Lemma IndexByte_prefix (l : string) (idx : nat) :
  IndexByte l colon = Some idx ->
  HasPrefix l (slice_to idx l +:+ ":") = true.
Proof.
  revert idx. induction l as [|a l IH]; intros idx; [done|]. simpl.
  destruct (Ascii.eqb a colon) eqn:Ha.
  - intros [= <-]. apply Ascii.eqb_eq in Ha. by subst a.
  - destruct (IndexByte l colon) as [i|]; [|done]. intros [= <-].
    simpl. rewrite Ascii.eqb_refl. by apply IH.
Qed.

Lemma header_field_prefix (l n v : string) :
  header_field l = Some (n, v) -> HasPrefix l (n +:+ ":") = true.
Proof.
  unfold header_field. destruct (IndexByte l colon) as [idx|] eqn:E; [|done].
  intros [= <- _]. by apply IndexByte_prefix.
Qed.

Lemma foldl_add_header_other (k : string) (hs : list string) (tid : Tiddler) :
  Forall (fun l => HasPrefix l (k +:+ ":") = false) hs ->
  foldl add_header tid hs !! k = tid !! k.
Proof.
  intros H. revert tid. induction H as [|l hs Hl _ IH]; intros tid; [done|].
  cbn [foldl]. rewrite IH. unfold add_header.
  destruct (header_field l) as [[n v]|] eqn:E; [|done].
  rewrite lookup_insert_ne; [done|]. intros ->.
  apply header_field_prefix in E. congruence.
Qed.

Lemma foldl_add_header_last (k v : string) (pre post : list string) (l : string)
    (tid : Tiddler) :
  header_field l = Some (k, v) ->
  Forall (fun l' => HasPrefix l' (k +:+ ":") = false) post ->
  foldl add_header tid (pre ++ l :: post) !! k = Some (VString v).
Proof.
  intros Hl Hpost. rewrite foldl_app. cbn [foldl].
  rewrite foldl_add_header_other by done.
  unfold add_header at 1. rewrite Hl. by rewrite lookup_insert_eq.
Qed.

(** C10. Decoding a line-encoded input (each header line has its colon)
    with no [revision] header line yields a record whose [revision] is the
    string "0"; with a [revision] header line the record keeps the value
    of the last such line. *)
Theorem Read_revision_default (r : string) :
  Forall (fun l => IndexByte l colon <> None) (headers r) ->
  exists tid : Tiddler,
    TiddlerFile_Read (Some r) = Ok tid
    /\ (Forall (fun l => HasPrefix l "revision:" = false) (headers r) ->
        tid !! "revision" = Some (VString "0"))
    /\ (forall (pre : list string) (raw : string) (post : list string),
          headers r = pre ++ ("revision:" +:+ raw) :: post ->
          Forall (fun l => HasPrefix l "revision:" = false) post ->
          tid !! "revision" = Some (VString (TrimSpace raw))).
Proof.
  intros Hall. destruct (Read_loop_headers r ∅ Hall) as (tid' & Hread & Hlook).
  cbn [TiddlerFile_Read]. rewrite Hread.
  eexists; split; [reflexivity|]. split.
  - intros Hnone.
    assert (tid' !! "revision" = None) as ->.
    { rewrite Hlook by done.
      by rewrite (foldl_add_header_other "revision"). }
    by rewrite lookup_insert_eq.
  - intros pre raw post Hh Hpost.
    assert (tid' !! "revision" = Some (VString (TrimSpace raw))) as Hrev.
    { rewrite Hlook by done. rewrite Hh.
      by apply (foldl_add_header_last "revision"). }
    by rewrite Hrev.
Qed.

Lemma Read_revision_default_witness :
  (exists tid : Tiddler,
      TiddlerFile_Read (Some ("title: A" +:+ LF +:+ LF +:+ "body")) = Ok tid
      /\ tid !! "revision" = Some (VString "0"))
  /\ (exists tid : Tiddler,
        TiddlerFile_Read
          (Some ("revision: 7" +:+ LF +:+ "title: A" +:+ LF)) = Ok tid
        /\ tid !! "revision" = Some (VString "7")).
Proof.
  split.
  - destruct (Read_revision_default ("title: A" +:+ LF +:+ LF +:+ "body"))
      as (tid & Hread & Hdefault & _).
    + repeat constructor; discriminate.
    + exists tid. split; [exact Hread|]. apply Hdefault. repeat constructor.
  - destruct (Read_revision_default ("revision: 7" +:+ LF +:+ "title: A" +:+ LF))
      as (tid & Hread & _ & Hkeep).
    + repeat constructor; discriminate.
    + exists tid. split; [exact Hread|].
      apply (Hkeep [] (" 7" +:+ LF) ["title: A" +:+ LF]); [reflexivity|].
      repeat constructor.
Defined.

(** ** Trimming *)



Lemma isSpace2_nl (a : ascii) : isSpace2 a nl = false.
Proof. unfold isSpace2. by rewrite andb_false_r. Qed.

Lemma isSpace3_nl (a b : ascii) : isSpace3 a b nl = false.
Proof.
  unfold isSpace3. generalize (nat_of_ascii a), (nat_of_ascii b). intros n m.
  change (nat_of_ascii nl) with 10. cbn [Nat.eqb Nat.leb].
  by rewrite !andb_false_r.
Qed.

Lemma TrimLeft_cons (a : ascii) (s1 : string) :
  TrimLeft (String a s1) =
  if isSpace1 a then TrimLeft s1
  else match s1 with
       | EmptyString => String a s1
       | String b s2 =>
           if isSpace2 a b then TrimLeft s2
           else match s2 with
                | EmptyString => String a s1
                | String c s3 =>
                    if isSpace3 a b c then TrimLeft s3 else String a s1
                end
       end.
Proof. reflexivity. Qed.

Lemma TrimLeftRev_cons (a : ascii) (s1 : string) :
  TrimLeftRev (String a s1) =
  if isSpace1 a then TrimLeftRev s1
  else match s1 with
       | EmptyString => String a s1
       | String b s2 =>
           if isSpace2 b a then TrimLeftRev s2
           else match s2 with
                | EmptyString => String a s1
                | String c s3 =>
                    if isSpace3 c b a then TrimLeftRev s3 else String a s1
                end
       end.
Proof. reflexivity. Qed.

Lemma TrimLeft_length_aux (n : nat) (s : string) :
  String.length s <= n -> String.length (TrimLeft s) <= String.length s.
Proof.
  revert s. induction n as [|n IH]; intros s Hn.
  - destruct s; [done | simpl in Hn; lia].
  - destruct s as [|a s1]; [done|]. rewrite TrimLeft_cons.
    cbn [String.length] in *.
    destruct (isSpace1 a); [specialize (IH s1); lia|].
    destruct s1 as [|b s2]; [done|]. cbn [String.length] in *.
    destruct (isSpace2 a b); [specialize (IH s2); lia|].
    destruct s2 as [|c s3]; [done|]. cbn [String.length] in *.
    destruct (isSpace3 a b c); [specialize (IH s3); lia|]. simpl; lia.
Qed.

Lemma TrimLeft_length (s : string) :
  String.length (TrimLeft s) <= String.length s.
Proof. by apply (TrimLeft_length_aux (String.length s)). Qed.

Lemma TrimLeft_shrinks (s : string) :
  TrimLeft s = s \/ String.length (TrimLeft s) < String.length s.
Proof.
  destruct s as [|a s1]; [by left|]. rewrite TrimLeft_cons.
  cbn [String.length].
  destruct (isSpace1 a); [right; pose proof (TrimLeft_length s1); lia|].
  destruct s1 as [|b s2]; [by left|]. cbn [String.length].
  destruct (isSpace2 a b); [right; pose proof (TrimLeft_length s2); lia|].
  destruct s2 as [|c s3]; [by left|]. cbn [String.length].
  destruct (isSpace3 a b c); [right; pose proof (TrimLeft_length s3); lia|].
  by left.
Qed.

Lemma TrimLeftRev_length_aux (n : nat) (s : string) :
  String.length s <= n -> String.length (TrimLeftRev s) <= String.length s.
Proof.
  revert s. induction n as [|n IH]; intros s Hn.
  - destruct s; [done | simpl in Hn; lia].
  - destruct s as [|a s1]; [done|]. rewrite TrimLeftRev_cons.
    cbn [String.length] in *.
    destruct (isSpace1 a); [specialize (IH s1); lia|].
    destruct s1 as [|b s2]; [done|]. cbn [String.length] in *.
    destruct (isSpace2 b a); [specialize (IH s2); lia|].
    destruct s2 as [|c s3]; [done|]. cbn [String.length] in *.
    destruct (isSpace3 c b a); [specialize (IH s3); lia|]. simpl; lia.
Qed.

Lemma rev_app_length (s acc : string) :
  String.length (String.rev_app s acc) = String.length s + String.length acc.
Proof.
  revert acc. induction s as [|a s IH]; intros acc; [done|].
  simpl. rewrite IH. simpl. lia.
Qed.

Lemma rev_length (s : string) : String.length (String.rev s) = String.length s.
Proof. unfold String.rev. rewrite rev_app_length. simpl. lia. Qed.

Lemma rev_app_app (s t acc : string) :
  String.rev_app (s +:+ t) acc = String.rev_app t (String.rev_app s acc).
Proof.
  revert acc. induction s as [|a s IH]; intros acc; [done|].
  rewrite app_cons. simpl. by rewrite IH.
Qed.

Lemma TrimRight_length (s : string) :
  String.length (TrimRight s) <= String.length s.
Proof.
  unfold TrimRight. rewrite rev_length.
  etrans; [by apply (TrimLeftRev_length_aux (String.length (String.rev s)))|].
  by rewrite rev_length.
Qed.

Lemma TrimRight_app_nl (s : string) : TrimRight (s +:+ LF) = TrimRight s.
Proof.
  unfold TrimRight, String.rev. rewrite rev_app_app. reflexivity.
Qed.

Lemma TrimSpace_fixed (v : string) :
  TrimSpace v = v -> TrimLeft v = v /\ TrimRight v = v.
Proof.
  unfold TrimSpace. intros H.
  destruct (TrimLeft_shrinks v) as [Hl|Hl].
  - by rewrite Hl in H.
  - pose proof (TrimRight_length (TrimLeft v)) as Hr. rewrite H in Hr. lia.
Qed.

Lemma TrimLeft_app_nl (v : string) :
  TrimLeft v = v -> v <> EmptyString -> TrimLeft (v +:+ LF) = v +:+ LF.
Proof.
  intros Hv Hne. destruct v as [|a s1]; [done|].
  assert (forall s, String.length s < String.length (String a s1) ->
                    TrimLeft s <> String a s1) as Hshort.
  { intros s Hs E. pose proof (TrimLeft_length s) as Hle. rewrite E in Hle. lia. }
  rewrite app_cons, TrimLeft_cons. rewrite TrimLeft_cons in Hv.
  destruct (isSpace1 a).
  { exfalso. apply (Hshort s1); [simpl; lia | done]. }
  destruct s1 as [|b s2].
  { rewrite app_nil_l. unfold LF. by rewrite isSpace2_nl. }
  rewrite app_cons. destruct (isSpace2 a b).
  { exfalso. apply (Hshort s2); [simpl; lia | done]. }
  destruct s2 as [|c s3].
  { rewrite app_nil_l. unfold LF. by rewrite isSpace3_nl. }
  rewrite app_cons. destruct (isSpace3 a b c); [|done].
  exfalso. apply (Hshort s3); [simpl; lia | done].
Qed.

(** The value of a header line as [TiddlerFile.Write] emits it, read
    back: the blank after the colon and the line feed are trimmed. *)
Lemma TrimSpace_header_value (v : string) :
  TrimSpace v = v -> TrimSpace (" " +:+ v +:+ LF) = v.
Proof.
  intros Hv. destruct (TrimSpace_fixed v Hv) as [Hl Hr].
  unfold TrimSpace.
  change (TrimLeft (" " +:+ v +:+ LF)) with (TrimLeft (v +:+ LF)).
  destruct (decide (v = EmptyString)) as [->|Hne]; [done|].
  by rewrite TrimLeft_app_nl, TrimRight_app_nl.
Qed.

(** ** Write, then Read *)

Lemma no_nl_app (s t : string) : no_nl (s +:+ t) = no_nl s && no_nl t.
Proof.
  induction s as [|a s IH]; [done|]. rewrite app_cons. simpl.
  by rewrite IH, andb_assoc.
Qed.

Lemma IndexByte_app (f x : string) :
  no_colon f = true -> IndexByte (f +:+ String colon x) colon = Some (String.length f).
Proof.
  induction f as [|a f IH]; [done|]. rewrite app_cons. simpl.
  intros [Ha Hf]%andb_true_iff. apply negb_true_iff in Ha. rewrite Ha.
  by rewrite IH.
Qed.

Lemma slice_to_app (f x : string) : slice_to (String.length f) (f +:+ x) = f.
Proof.
  induction f as [|a f IH]; [by destruct x|]. rewrite app_cons. simpl.
  by rewrite IH.
Qed.

Lemma slice_from_app (f x : string) (c : ascii) :
  slice_from (S (String.length f)) (f +:+ String c x) = x.
Proof. induction f as [|a f IH]; [done|]. rewrite app_cons. by simpl. Qed.

Lemma header_field_line (f raw : string) :
  no_colon f = true ->
  header_field (f +:+ String colon raw) = Some (f, TrimSpace raw).
Proof.
  intros Hf. unfold header_field.
  by rewrite IndexByte_app, slice_to_app, slice_from_app.
Qed.

Lemma Read_loop_header (f v rest : string) (tid : Tiddler) :
  no_nl f = true -> no_colon f = true -> no_nl v = true ->
  Read_loop (f +:+ ": " +:+ v +:+ LF +:+ rest) tid =
  Read_loop rest (<[f := VString (TrimSpace (" " +:+ v +:+ LF))]> tid).
Proof.
  intros Hf Hc Hv. rewrite Read_loop_step.
  replace (f +:+ ": " +:+ v +:+ LF +:+ rest)
    with ((f +:+ ": " +:+ v) +:+ LF +:+ rest)
    by (by rewrite !app_assoc).
  rewrite ReadString_line
    by (rewrite !no_nl_app, Hf, Hv; reflexivity).
  replace ((f +:+ ": " +:+ v) +:+ LF)
    with (f +:+ String colon (" " +:+ v +:+ LF))
    by (by rewrite !app_assoc).
  rewrite colon_not_whitespace by (by rewrite IndexByte_app).
  by rewrite header_field_line.
Qed.

Lemma Read_loop_blank (txt : string) (tid : Tiddler) :
  Read_loop (LF +:+ txt) tid =
  Ok (if 0 <? String.length txt then <["text" := VString txt]> tid else tid).
Proof. by rewrite Read_loop_step. Qed.

Lemma write_range_ok (ord : list (string * Value)) (buf : string) :
  Forall (fun e => safe_entry e.1 e.2 = true) ord ->
  write_range ord buf = Ok (buf +:+ header_block ord).
Proof.
  intros H. revert buf. induction H as [|[f x] ord He _ IH]; intros buf.
  - by rewrite app_nil_r.
  - cbn [write_range header_block entry_line]. cbn [fst snd] in He.
    unfold safe_entry in He. destruct x as [v| | |]; try done.
    apply andb_true_iff in He as [Hfields He].
    apply negb_true_iff in Hfields. rewrite Hfields.
    destruct (String.eqb f "text").
    + by rewrite IH.
    + rewrite IH. by rewrite !app_assoc.
Qed.

Lemma Read_loop_block (ord : list (string * Value)) (txt : string) (tid : Tiddler) :
  Forall (fun e => safe_entry e.1 e.2 = true) ord ->
  Read_loop (header_block ord +:+ LF +:+ txt) tid =
  Ok (let tid' := foldl put_entry tid ord in
      if 0 <? String.length txt then <["text" := VString txt]> tid' else tid').
Proof.
  intros H. revert tid. induction H as [|[f x] ord He _ IH]; intros tid.
  - apply Read_loop_blank.
  - cbn [header_block entry_line foldl]. cbn [fst snd] in He.
    unfold safe_entry in He. destruct x as [v| | |]; try done.
    apply andb_true_iff in He as [_ He].
    replace (put_entry tid (f, VString v))
      with (if String.eqb f "text" then tid else <[f := VString v]> tid)
      by reflexivity.
    destruct (String.eqb f "text"); [rewrite app_nil_l; apply IH|].
    apply andb_true_iff in He as [He Htrim].
    apply andb_true_iff in He as [He Hv].
    apply andb_true_iff in He as [Hf Hc].
    apply String.eqb_eq in Htrim.
    rewrite !app_assoc, Read_loop_header by done.
    rewrite TrimSpace_header_value by done. apply IH.
Qed.

Lemma foldl_put_entry_fresh (k : string) (ord : list (string * Value)) (tid : Tiddler) :
  k ∉ ord.*1 -> foldl put_entry tid ord !! k = tid !! k.
Proof.
  revert tid. induction ord as [|[f x] ord IH]; intros tid Hk; [done|].
  cbn [foldl]. rewrite fmap_cons in Hk. apply not_elem_of_cons in Hk as [Hne Hk].
  rewrite IH by done. unfold put_entry. cbn [fst snd] in *.
  destruct (String.eqb f "text"); [done|]. by rewrite lookup_insert_ne.
Qed.

Lemma foldl_put_entry_text (ord : list (string * Value)) (tid : Tiddler) :
  foldl put_entry tid ord !! "text" = tid !! "text".
Proof.
  revert tid. induction ord as [|[f x] ord IH]; intros tid; [done|].
  cbn [foldl]. rewrite IH. unfold put_entry. cbn [fst snd].
  destruct (String.eqb_spec f "text"); [done|]. by rewrite lookup_insert_ne.
Qed.

Lemma foldl_put_entry_elem (k : string) (x : Value) (ord : list (string * Value))
    (tid : Tiddler) :
  NoDup ord.*1 -> (k, x) ∈ ord -> k <> "text" ->
  foldl put_entry tid ord !! k = Some x.
Proof.
  revert tid. induction ord as [|[f y] ord IH]; intros tid Hnd Hin Hk.
  - by apply elem_of_nil in Hin.
  - rewrite fmap_cons in Hnd. apply NoDup_cons in Hnd as [Hf Hnd].
    cbn [foldl]. apply elem_of_cons in Hin as [[= <- <-]|Hin].
    + rewrite foldl_put_entry_fresh by done. unfold put_entry. cbn [fst snd].
      destruct (String.eqb_spec k "text"); [done|]. by rewrite lookup_insert_eq.
    + by apply IH.
Qed.

Lemma foldl_put_entry_range (t : Tiddler) (ord : list (string * Value)) (k : string) :
  ord ≡ₚ map_to_list t -> k <> "text" ->
  foldl put_entry ∅ ord !! k = t !! k.
Proof.
  intros Hord Hk.
  assert (NoDup ord.*1) as Hnd.
  { rewrite Hord. apply NoDup_fst_map_to_list. }
  destruct (t !! k) as [x|] eqn:E.
  - apply foldl_put_entry_elem; [done| |done].
    rewrite Hord. by apply elem_of_map_to_list.
  - rewrite foldl_put_entry_fresh; [done|].
    intros ([k' x] & -> & Hin)%list_elem_of_fmap.
    rewrite Hord in Hin. apply elem_of_map_to_list in Hin.
    cbn [fst] in E. congruence.
Qed.

Lemma range_safe (t : Tiddler) (ord : list (string * Value)) :
  roundtrip_safe t -> ord ≡ₚ map_to_list t ->
  Forall (fun e => safe_entry e.1 e.2 = true) ord.
Proof.
  intros Hsafe Hord. apply Forall_forall. intros [f x] Hin.
  rewrite Hord in Hin. apply elem_of_map_to_list in Hin.
  by apply (Hsafe f x).
Qed.

(** C4, as amended.  Take a record whose values are strings, with no
    [fields] key, whose [text] is not empty, and whose other fields have
    names without colon or line feed and values without line feed and
    without white space at either end.  Whatever the order [ord] in which
    the range of [Write] yields the fields, [Write] builds its output
    without a panic and hands it to the writer, and [Read] of that output
    gives the record back, with [revision] set to "0" when the record has
    none. *)
Theorem Write_Read_roundtrip (t : Tiddler) (ord : list (string * Value)) :
  roundtrip_safe t ->
  ord ≡ₚ map_to_list t ->
  exists out : string,
    Write_buf t ord = Ok out
    /\ (forall w : Writer,
          w out = None -> TiddlerFile_Write t ord (Some w) = Ok tt)
    /\ TiddlerFile_Read (Some out) = Ok (with_revision t).
Proof.
  intros Hsafe Hord. pose proof (range_safe t ord Hsafe Hord) as Hall.
  assert (forall out, Write_buf t ord = Ok out ->
            forall w : Writer,
              w out = None -> TiddlerFile_Write t ord (Some w) = Ok tt) as Hw.
  { intros out Hout w Hacc. unfold TiddlerFile_Write. by rewrite Hout, Hacc. }
  unfold Write_buf in *. rewrite write_range_ok, app_nil_l in * by done.
  assert (forall txt : string,
             (if 0 <? String.length txt
              then t !! "text" = Some (VString txt)
              else t !! "text" = None) ->
             TiddlerFile_Read (Some (header_block ord +:+ LF +:+ txt))
             = Ok (with_revision t)) as Hread.
  { intros txt Htxt. cbn [TiddlerFile_Read].
    rewrite Read_loop_block by done. cbn zeta.
    match goal with
    | |- context [Ok (match ?m !! "revision" with _ => _ end)] =>
        assert (m = t) as ->; [|done]
    end.
    apply map_eq. intros k. destruct (decide (k = "text")) as [->|Hk].
    - destruct (0 <? String.length txt).
      + by rewrite lookup_insert_eq.
      + by rewrite foldl_put_entry_text, lookup_empty.
    - destruct (0 <? String.length txt).
      + rewrite lookup_insert_ne by done. by apply foldl_put_entry_range.
      + by apply foldl_put_entry_range. }
  destruct (t !! "text") as [x|] eqn:Etext.
  - pose proof (Hsafe _ _ Etext) as Hx. unfold safe_entry in Hx.
    destruct x as [txt| | |]; try done.
    eexists; split; [reflexivity|]. split; [by apply Hw|].
    rewrite app_assoc. apply Hread.
    destruct txt; [done|]. done.
  - eexists; split; [reflexivity|]. split; [by apply Hw|].
    rewrite <- (app_nil_r LF). by apply Hread.
Qed.

Lemma Write_Read_roundtrip_witness :
  exists out : string,
    Write_buf tiddler_tagged
      [("title", VString "My Tiddler"); ("text", VString "hello");
       ("tags", VString "one [[two words]]")] = Ok out
    /\ (forall w : Writer,
          w out = None ->
          TiddlerFile_Write tiddler_tagged
            [("title", VString "My Tiddler"); ("text", VString "hello");
             ("tags", VString "one [[two words]]")] (Some w) = Ok tt)
    /\ TiddlerFile_Read (Some out) = Ok (with_revision tiddler_tagged).
Proof.
  apply Write_Read_roundtrip.
  - apply (bool_decide_unpack _). vm_compute. exact I.
  - let l := eval vm_compute in (map_to_list tiddler_tagged) in
    change (map_to_list tiddler_tagged) with l.
    apply Permutation_swap.
Defined.

(** C4, as stated, fails on records of strings.  A title that starts with
    a blank comes back without the blank.  An empty text does not come
    back at all.  A value of two lines makes [Read] panic on the second
    line.  A name with a colon comes back cut at the colon.  A [fields]
    key with a string value makes [Write] panic. *)
Lemma Write_Read_roundtrip_counterexample :
  (exists (out : string) (t' : Tiddler),
      Write_buf tiddler_blank_title (map_to_list tiddler_blank_title) = Ok out
      /\ TiddlerFile_Read (Some out) = Ok t'
      /\ t' !! "title" = Some (VString "A")
      /\ t' !! "title" <> tiddler_blank_title !! "title")
  /\ (exists (out : string) (t' : Tiddler),
        Write_buf tiddler_empty_text (map_to_list tiddler_empty_text) = Ok out
        /\ TiddlerFile_Read (Some out) = Ok t'
        /\ t' !! "text" = None
        /\ tiddler_empty_text !! "text" = Some (VString EmptyString))
  /\ (exists out : string,
        Write_buf tiddler_two_lines (map_to_list tiddler_two_lines) = Ok out
        /\ TiddlerFile_Read (Some out) = Panic)
  /\ (exists (out : string) (t' : Tiddler),
        Write_buf tiddler_colon_name (map_to_list tiddler_colon_name) = Ok out
        /\ TiddlerFile_Read (Some out) = Ok t'
        /\ t' !! "a:b" = None
        /\ t' !! "a" = Some (VString "b: c"))
  /\ Write_buf tiddler_fields_string (map_to_list tiddler_fields_string) = Panic.
Proof.
  split; [|split; [|split; [|split]]].
  - eexists _, _. split; [reflexivity|]. split; [reflexivity|].
    split; [reflexivity|]. discriminate.
  - eexists _, _. split; [reflexivity|]. split; [reflexivity|].
    split; reflexivity.
  - eexists. split; reflexivity.
  - eexists _, _. split; [reflexivity|]. split; [reflexivity|].
    split; reflexivity.
  - reflexivity.
Qed.

(** ** The store: writes and deletes *)




(** On a store opened without the index both maps are nil, and the
    assignment to the index panics after the write went through. *)
Lemma writeTiddlerToWriter_nil_maps :
  writeTiddlerToWriter tiddler_A (map_to_list tiddler_A) "wiki/tiddlers"
    None None (newWriter (file_backend ∅ []))
  = ([BCreate "wiki/tiddlers/A.tid"], Panic, None, None).
Proof. reflexivity. Qed.

(** ** The index and the cache hold the same titles *)





(** ** Deleting *)

(** C2, as amended.  [DeleteTiddler] asks the backend to remove the
    location the index holds for the title, and the empty location for a
    title the index does not hold; there is no fall back to the canonical
    file name.  When the removal succeeds the title is gone from the index
    and from the cache, and no other title is touched; when it fails the
    error is returned and the store is as before. *)
Theorem DeleteTiddler_by_index_only (be : Backend) (s : Store) (title : string) :
  let out := DeleteTiddler be s title in
  let filename := default EmptyString (go_lookup (tiddlerToFile s) title) in
  out.1.1 = [BRemove filename]
  /\ (forall e, remove be filename = Some e -> out.1.2 = Err e /\ out.2 = s)
  /\ (remove be filename = None ->
      out.1.2 = Ok tt
      /\ go_lookup (tiddlerToFile out.2) title = None
      /\ go_lookup (tiddlerCache out.2) title = None
      /\ (forall k, k <> title ->
            go_lookup (tiddlerToFile out.2) k = go_lookup (tiddlerToFile s) k
            /\ go_lookup (tiddlerCache out.2) k = go_lookup (tiddlerCache s) k)).
Proof.
  intros out filename. subst out. unfold DeleteTiddler. fold filename.
  destruct (remove be filename) as [e|]; cbn [fst snd].
  - split; [done|]. split; [|done]. by intros e' [= <-].
  - split; [done|]. split; [done|]. intros _.
    destruct s as [bd td [index|] [cache|]]; cbn;
      rewrite ?lookup_delete_eq; repeat split; try done;
      by rewrite lookup_delete_ne.
Qed.

Lemma DeleteTiddler_by_index_only_witness :
  (DeleteTiddler (file_backend wiki_A []) store_A "A").1.1
  = [BRemove "wiki/tiddlers/A.tid"]
  /\ (DeleteTiddler (file_backend wiki_A []) store_A "A").1.2 = Ok tt
  /\ go_lookup
       (tiddlerToFile (DeleteTiddler (file_backend wiki_A []) store_A "A").2) "A"
     = None.
Proof.
  destruct (DeleteTiddler_by_index_only (file_backend wiki_A []) store_A "A")
    as (Hcall & _ & Hok).
  split; [exact Hcall|].
  destruct (Hok eq_refl) as (Hr & Hindex & _). by split.
Defined.

(** C2, as stated, fails: for a title the index does not hold, the file
    under the canonical name is there, and [DeleteTiddler] asks for the
    removal of the empty location instead and returns the error. *)
Lemma DeleteTiddler_no_fallback_counterexample :
  location_with_fallback store_unindexed "A" = "wiki/tiddlers/A.tid"
  /\ remove (file_backend wiki_A []) (location_with_fallback store_unindexed "A")
     = None
  /\ DeleteTiddler (file_backend wiki_A []) store_unindexed "A"
     = ([BRemove EmptyString],
        Err "remove : no such file or directory", store_unindexed).
Proof. repeat split. Qed.

(** ** Reading through the cache *)

(** The cache is keyed by title and looked up under the file name: a
    title whose file name is no key of the cache goes to the backend. *)
Lemma getTiddlerFileFromStore_cache_key (title dir filename : string)
    (index : GoMap string) (cache : GoMap Tiddler) (reader : string -> Res string) :
  go_lookup index title = Some filename ->
  go_lookup cache filename = None ->
  getTiddlerFileFromStore title dir index cache reader
  = readTiddlerFileWithReadCloser filename reader.
Proof. intros Hi Hc. unfold getTiddlerFileFromStore. by rewrite Hi, Hc. Qed.

Lemma readTiddlerFileWithReadCloser_reads (path : string)
    (reader : string -> Res string) :
  exists more, (readTiddlerFileWithReadCloser path reader).1 = BRead path :: more.
Proof.
  unfold readTiddlerFileWithReadCloser.
  destruct (reader path) as [f|e|]; [|by eexists..].
  destruct (TiddlerFile_Read (Some f)) as [tid|e|]; [|by eexists..].
  destruct (HasSuffix path ".meta"); [|by eexists].
  destruct (reader _) as [b|e|]; by eexists.
Qed.

(** C1, on the code.  The store is built with the index over a wiki that
    holds the tiddler [A]; the cache holds [A]; and [GetTiddler] of [A]
    still opens the file of [A]: one backend read where the cached record
    was to be returned with none. *)
Theorem GetTiddler_cached_title_reads_backend :
  NewFileStore (file_backend wiki_A ["wiki/tiddlers/A.tid"]) "wiki" true
  = Ok store_A
  /\ go_lookup (tiddlerCache store_A) "A" = Some tiddler_A
  /\ GetTiddler (file_backend wiki_A ["wiki/tiddlers/A.tid"]) store_A "A"
     = ([BRead "wiki/tiddlers/A.tid"], Ok tiddler_A).
Proof. repeat split. Qed.

(** ** The sidecar of a meta file *)

(** With a [type] field in the record of the meta file, the text is the
    content of the file without the suffix: bytes for a binary type, a
    string otherwise. *)
Lemma sidecar_text_by_type (path f b ty : string) (tid : Tiddler)
    (reader : string -> Res string) :
  HasSuffix path ".meta" = true ->
  reader path = Ok f ->
  TiddlerFile_Read (Some f) = Ok tid ->
  reader (TrimSuffix path ".meta") = Ok b ->
  tid !! "type" = Some (VString ty) ->
  readTiddlerFileWithReadCloser path reader
  = ([BRead path; BRead (TrimSuffix path ".meta")],
     Ok (<["text" := if reBinaryType ty then VBytes b else VString b]> tid)).
Proof.
  intros Hs Hf Ht Hb Hty. unfold readTiddlerFileWithReadCloser.
  rewrite Hf, Ht, Hs, Hb, Hty. by destruct (reBinaryType ty).
Qed.

(** C7, on the code.  A meta file of type [image/png] gets the bytes of
    the picture as its text, one of type [text/plain] gets a string; a
    meta file with no [type] line makes the decoder panic (the type
    assertion on the absent field) where the text was to be a string. *)
Theorem sidecar_without_type_panics :
  (readTiddlerFileWithReadCloser "wiki/tiddlers/pic.png.meta"
     (newReader (file_backend wiki_meta []))).2
  = Ok (<["text" := VBytes png_bytes]>
          (<["title" := VString "pic.png"]>
             (<["type" := VString "image/png"]>
                (<["revision" := VString "0"]> ∅))))
  /\ (readTiddlerFileWithReadCloser "wiki/tiddlers/note.txt.meta"
        (newReader (file_backend wiki_meta []))).2
     = Ok (<["text" := VString "a note"]>
             (<["title" := VString "note.txt"]>
                (<["type" := VString "text/plain"]>
                   (<["revision" := VString "0"]> ∅))))
  /\ readTiddlerFileWithReadCloser "wiki/tiddlers/bare.txt.meta"
       (newReader (file_backend wiki_meta []))
     = ([BRead "wiki/tiddlers/bare.txt.meta"; BRead "wiki/tiddlers/bare.txt"],
        Panic).
Proof. repeat split. Qed.

(** ** One failing location in a walk *)




(** C3, on the code.  The walk lists a location that cannot be opened
    and then the file of [A].  The index build logs the error, skips the
    location and indexes [A]; the full listing of a store with an empty
    cache panics on the same walk, and so does a store with no cache at
    all.  A file with a line that has no colon makes even the index build
    panic. *)
Theorem listing_panics_on_failed_read :
  (exists b,
      buildCacheAndIndex (Ok ["wiki/tiddlers/gone.tid"; "wiki/tiddlers/A.tid"])
        (newReader (file_backend wiki_A [])) = Ok b
      /\ built_index b = {[ "A" := "wiki/tiddlers/A.tid" ]}
      /\ built_cache b = {[ "A" := tiddler_A ]}
      /\ length (built_log b) = 1)
  /\ getAllTiddlerFilesFromStore (Some ∅) (newReader (file_backend wiki_A []))
       (Ok ["wiki/tiddlers/gone.tid"; "wiki/tiddlers/A.tid"]) = Panic
  /\ GetAllTiddlers
       (file_backend wiki_A ["wiki/tiddlers/gone.tid"; "wiki/tiddlers/A.tid"])
       store_light = Panic
  /\ getAllTiddlerFilesFromStore (Some ∅) (newReader (file_backend wiki_A []))
       (Ok ["wiki/tiddlers/A.tid"]) = Ok [tiddler_A]
  /\ buildCacheAndIndex (Ok ["wiki/tiddlers/bad.tid"; "wiki/tiddlers/A.tid"])
       (newReader (file_backend wiki_malformed [])) = Panic.
Proof.
  split; [|repeat split].
  eexists. split; [reflexivity|]. repeat split.
Qed.

(** * Further properties of the codec *)

Lemma Read_loop_never_errs (r : string) (tid : Tiddler) (e : string) :
  Read_loop r tid <> Err e.
Proof.
  revert tid. induction r as [r IH] using string_length_ind. intros tid.
  rewrite Read_loop_step.
  destruct (ReadString r) as [[line b] eof] eqn:E.
  destruct (reWhitespaceOnly line); [done|].
  destruct (header_field line) as [[name value]|]; [|done].
  destruct eof; [done|]. apply IH. by eapply ReadString_shorter.
Qed.

Lemma Read_loop_panics (r : string) (tid : Tiddler) :
  Exists (fun l => IndexByte l colon = None) (headers r) ->
  Read_loop r tid = Panic.
Proof.
  revert tid. induction r as [r IH] using string_length_ind. intros tid.
  rewrite Read_loop_step. unfold headers. rewrite lines_ReadString.
  destruct (ReadString r) as [[line b] eof] eqn:E. cbn [header_lines].
  destruct (reWhitespaceOnly line).
  { intros H. by apply Exists_nil in H. }
  intros H. apply Exists_cons in H. unfold header_field.
  destruct (IndexByte line colon) as [idx|] eqn:Ei; [|done].
  destruct H as [H|H]; [done|].
  destruct eof; [by apply Exists_nil in H|].
  apply IH; [by eapply ReadString_shorter | done].
Qed.

(** X1.  The decoder never returns an error for a reader that is there: it
    returns a record when every header line has a colon, and panics when
    some header line (a line before the first blank one) has none. *)
Theorem Read_succeeds_iff_headers_have_colon (r : string) :
  (Forall (fun l => IndexByte l colon <> None) (headers r) ->
   exists tid, TiddlerFile_Read (Some r) = Ok tid)
  /\ (Exists (fun l => IndexByte l colon = None) (headers r) ->
      TiddlerFile_Read (Some r) = Panic)
  /\ (forall e, TiddlerFile_Read (Some r) <> Err e).
Proof.
  split; [|split].
  - intros H. destruct (Read_loop_headers r ∅ H) as (tid & Hr & _).
    cbn [TiddlerFile_Read]. rewrite Hr. eauto.
  - intros H. cbn [TiddlerFile_Read]. by rewrite Read_loop_panics.
  - intros e. cbn [TiddlerFile_Read].
    destruct (Read_loop r ∅) as [tid|e'|] eqn:E; [done| |done].
    by apply Read_loop_never_errs in E.
Qed.

Lemma Read_succeeds_iff_headers_have_colon_witness :
  (exists tid,
      TiddlerFile_Read (Some ("title: A" +:+ LF +:+ "tags: x" +:+ LF)) = Ok tid)
  /\ TiddlerFile_Read (Some ("title: A" +:+ LF +:+ "oops" +:+ LF +:+ LF +:+ "t"))
     = Panic.
Proof.
  split.
  - apply Read_succeeds_iff_headers_have_colon.
    repeat constructor; discriminate.
  - apply Read_succeeds_iff_headers_have_colon.
    apply Exists_cons_tl, Exists_cons_hd. reflexivity.
Defined.

Lemma Read_loop_all_strings (r : string) (tid tid' : Tiddler) :
  all_strings tid -> Read_loop r tid = Ok tid' -> all_strings tid'.
Proof.
  revert tid. induction r as [r IH] using string_length_ind. intros tid Hs.
  rewrite Read_loop_step.
  destruct (ReadString r) as [[line b] eof] eqn:E.
  destruct (reWhitespaceOnly line).
  { intros [= <-]. destruct (0 <? String.length b); [|done].
    apply map_Forall_insert_2; eauto. }
  destruct (header_field line) as [[name value]|]; [|done].
  assert (all_strings (<[name := VString value]> tid)) as Hs'.
  { apply map_Forall_insert_2; eauto. }
  destruct eof; [by intros [= <-]|].
  apply IH; [by eapply ReadString_shorter | done].
Qed.

(** X2.  Every record the decoder returns has a [revision], and all its
    values are strings, the text included. *)
Theorem Read_record_of_strings (r : string) (tid : Tiddler) :
  TiddlerFile_Read (Some r) = Ok tid ->
  is_Some (tid !! "revision") /\ all_strings tid.
Proof.
  cbn [TiddlerFile_Read].
  destruct (Read_loop r ∅) as [t|e|] eqn:E; [|done..].
  pose proof (Read_loop_all_strings r ∅ t (map_Forall_empty _) E) as Hs.
  intros [= <-]. destruct (t !! "revision") as [x|] eqn:Er.
  - split; [by rewrite Er | done].
  - split; [by rewrite lookup_insert_eq|].
    apply map_Forall_insert_2; eauto.
Qed.

Lemma Read_record_of_strings_witness :
  is_Some ((<["revision" := VString "0"]> (<["title" := VString "A"]> ∅) : Tiddler)
             !! "revision")
  /\ all_strings (<["revision" := VString "0"]> (<["title" := VString "A"]> ∅)).
Proof.
  apply (Read_record_of_strings ("title: A" +:+ LF)). reflexivity.
Defined.

Lemma Read_loop_line (x rest : string) (tid : Tiddler) :
  no_nl x = true -> IndexByte x colon <> None ->
  Read_loop (x +:+ LF +:+ rest) tid = Read_loop rest (add_header tid (x +:+ LF)).
Proof.
  intros Hx Hc. rewrite Read_loop_step, ReadString_line by done.
  assert (IndexByte (x +:+ LF) colon <> None) as Hc'.
  { clear Hx. induction x as [|a x IH]; [done|]. rewrite app_cons. simpl in *.
    destruct (Ascii.eqb a colon); [done|].
    destruct (IndexByte x colon); [|done].
    by destruct (IndexByte (x +:+ LF) colon); [|destruct IH]. }
  rewrite colon_not_whitespace by done. unfold add_header, header_field.
  destruct (IndexByte (x +:+ LF) colon); done.
Qed.

Lemma Read_loop_join_lines (hs : list string) (rest : string) (tid : Tiddler) :
  Forall (fun x => no_nl x = true /\ IndexByte x colon <> None) hs ->
  Read_loop (join_lines hs +:+ rest) tid =
  Read_loop rest (foldl add_header tid ((fun x => x +:+ LF) <$> hs)).
Proof.
  intros H. revert tid. induction H as [|x hs [Hx Hc] _ IH]; intros tid.
  - by rewrite app_nil_l.
  - cbn [join_lines]. rewrite !app_assoc, Read_loop_line by done.
    rewrite IH. by rewrite fmap_cons.
Qed.

(** X3.  The text of a decoded record is, byte for byte, what follows the
    first blank line, whenever something follows it; a header line named
    [text] is then overridden. *)
Theorem Read_text_is_body (hs : list string) (blank body : string) :
  Forall (fun x => no_nl x = true /\ IndexByte x colon <> None) hs ->
  reWhitespaceOnly blank = true ->
  no_nl blank = true ->
  body <> EmptyString ->
  exists tid,
    TiddlerFile_Read (Some (join_lines hs +:+ blank +:+ LF +:+ body)) = Ok tid
    /\ tid !! "text" = Some (VString body).
Proof.
  intros Hhs Hws Hnl Hbody. cbn [TiddlerFile_Read].
  rewrite Read_loop_join_lines by done.
  rewrite Read_loop_step, ReadString_line by done.
  assert (reWhitespaceOnly (blank +:+ LF) = true) as ->.
  { clear Hnl. induction blank as [|a blank IH]; [done|].
    rewrite app_cons. simpl in *. apply andb_true_iff in Hws as [-> Hws].
    by rewrite IH. }
  destruct body as [|a body]; [done|]. cbn [String.length Nat.ltb Nat.leb].
  set (tid := <["text" := _]> _).
  assert (tid !! "text" = Some (VString (String a body))) as Ht
    by apply lookup_insert_eq.
  destruct (tid !! "revision");
    (eexists; split; [reflexivity|]); [done|].
  by rewrite lookup_insert_ne.
Qed.

Lemma Read_text_is_body_witness :
  exists tid,
    TiddlerFile_Read
      (Some (join_lines ["title: A"; "text: from a header"]
             +:+ "  " +:+ LF +:+ "first" +:+ LF +:+ LF +:+ "x: y"))
    = Ok tid
    /\ tid !! "text" = Some (VString ("first" +:+ LF +:+ LF +:+ "x: y")).
Proof.
  apply (Read_text_is_body ["title: A"; "text: from a header"] "  "
           ("first" +:+ LF +:+ LF +:+ "x: y")).
  - repeat constructor; discriminate.
  - reflexivity.
  - reflexivity.
  - discriminate.
Defined.

Lemma header_field_named (k raw : string) :
  no_colon k = true ->
  header_field (k +:+ ":" +:+ raw) = Some (k, TrimSpace raw).
Proof. intros Hk. by apply (header_field_line k raw). Qed.

(** X4.  A field of a decoded record other than the text: its value is the
    trimmed value of the last header line with that name, and a name with
    no header line is absent, but for the [revision], which is then "0". *)
Theorem Read_last_header_wins (r k : string) :
  no_colon k = true ->
  k <> "text" ->
  Forall (fun l => IndexByte l colon <> None) (headers r) ->
  exists tid,
    TiddlerFile_Read (Some r) = Ok tid
    /\ (forall pre raw post,
          headers r = pre ++ (k +:+ ":" +:+ raw) :: post ->
          Forall (fun l => HasPrefix l (k +:+ ":") = false) post ->
          tid !! k = Some (VString (TrimSpace raw)))
    /\ (Forall (fun l => HasPrefix l (k +:+ ":") = false) (headers r) ->
        tid !! k = if String.eqb k "revision" then Some (VString "0") else None).
Proof.
  intros Hk Htext Hall.
  destruct (Read_loop_headers r ∅ Hall) as (t & Hr & Hlook).
  cbn [TiddlerFile_Read]. rewrite Hr. eexists; split; [reflexivity|].
  assert (forall x : Value,
             t !! k = Some x ->
             match t !! "revision" with
             | Some _ => t
             | None => <["revision" := VString "0"]> t
             end !! k = Some x) as Hsome.
  { intros x Hx. destruct (t !! "revision") eqn:Er; [done|].
    rewrite lookup_insert_ne; [done|]. intros <-. congruence. }
  split.
  - intros pre raw post Hh Hpost. apply Hsome.
    rewrite Hlook, Hh by done.
    apply foldl_add_header_last; [|done]. by apply header_field_named.
  - intros Hnone.
    assert (t !! k = None) as Hk'.
    { by rewrite Hlook, foldl_add_header_other by done. }
    destruct (String.eqb_spec k "revision") as [->|Hne].
    + rewrite Hk'. by rewrite lookup_insert_eq.
    + destruct (t !! "revision"); [done|]. by rewrite lookup_insert_ne.
Qed.

Lemma Read_last_header_wins_witness :
  exists tid,
    TiddlerFile_Read
      (Some ("tags: one" +:+ LF +:+ "title: A" +:+ LF +:+ "tags:  two " +:+ LF))
    = Ok tid
    /\ tid !! "tags" = Some (VString "two")
    /\ tid !! "type" = None.
Proof.
  destruct (Read_last_header_wins
              ("tags: one" +:+ LF +:+ "title: A" +:+ LF +:+ "tags:  two " +:+ LF)
              "tags" eq_refl) as (tid & Hr & Hlast & _).
  { discriminate. }
  { repeat constructor; discriminate. }
  destruct (Read_last_header_wins
              ("tags: one" +:+ LF +:+ "title: A" +:+ LF +:+ "tags:  two " +:+ LF)
              "type" eq_refl) as (tid' & Hr' & _ & Hnone).
  { discriminate. }
  { repeat constructor; discriminate. }
  rewrite Hr in Hr'. injection Hr' as <-.
  exists tid. split; [exact Hr|]. split.
  - apply (Hlast ["tags: one" +:+ LF; "title: A" +:+ LF] ("  two " +:+ LF) []);
      [reflexivity | constructor].
  - apply Hnone. repeat constructor.
Defined.

(** X5.  The title peek and the decoder agree on a stream with one [title:]
    header line: the peek answers the title the decoded record holds. *)
Theorem peek_agrees_with_Read (r : string) (pre : list string) (v : string)
    (post : list string) :
  headers r = pre ++ ("title:" +:+ v) :: post ->
  Forall (fun l => HasPrefix l "title:" = false) pre ->
  Forall (fun l => HasPrefix l "title:" = false) post ->
  Forall (fun l => IndexByte l colon <> None) (headers r) ->
  TrimSpace v <> EmptyString ->
  getTiddlerFileTile (Some r) = Ok (TrimSpace v)
  /\ exists tid,
       TiddlerFile_Read (Some r) = Ok tid
       /\ tid !! "title" = Some (VString (TrimSpace v)).
Proof.
  intros Hh Hpre Hpost Hall Hv. split.
  - cbn [getTiddlerFileTile].
    rewrite title_loop_headers, Hh, first_title_skip by done.
    cbn [first_title]. rewrite (HasPrefix_app "title:" v), title_of_line_prefix.
    destruct (String.eqb_spec (TrimSpace v) EmptyString); done.
  - destruct (Read_loop_headers r ∅ Hall) as (t & Hr & Hlook).
    cbn [TiddlerFile_Read]. rewrite Hr. eexists; split; [reflexivity|].
    assert (t !! "title" = Some (VString (TrimSpace v))) as Ht.
    { rewrite Hlook, Hh by done.
      apply foldl_add_header_last; [|done]. by apply (header_field_named "title"). }
    destruct (t !! "revision"); [done|]. by rewrite lookup_insert_ne.
Qed.

Lemma peek_agrees_with_Read_witness :
  getTiddlerFileTile
    (Some ("created: 1" +:+ LF +:+ "title: Bar" +:+ LF +:+ LF +:+ "body"))
  = Ok "Bar"
  /\ exists tid,
       TiddlerFile_Read
         (Some ("created: 1" +:+ LF +:+ "title: Bar" +:+ LF +:+ LF +:+ "body"))
       = Ok tid
       /\ tid !! "title" = Some (VString "Bar").
Proof.
  apply (peek_agrees_with_Read _ ["created: 1" +:+ LF] (" Bar" +:+ LF) []).
  - reflexivity.
  - repeat constructor.
  - constructor.
  - repeat constructor; discriminate.
  - vm_compute. discriminate.
Defined.

Lemma HasPrefix_cons (a b : ascii) (s p : string) :
  HasPrefix (String a s) (String b p) =
  if Ascii.eqb a b then HasPrefix s p else false.
Proof. reflexivity. Qed.

Lemma HasPrefix_name_inj (f g x : string) :
  no_colon f = true -> no_colon g = true ->
  HasPrefix (f +:+ String colon x) (g +:+ ":") = true -> f = g.
Proof.
  revert f. induction g as [|b g IH]; intros f Hf Hg.
  - destruct f as [|a f]; [done|]. rewrite app_cons, app_nil_l.
    change ":" with (String colon EmptyString). rewrite HasPrefix_cons.
    cbn [no_colon] in Hf. apply andb_true_iff in Hf as [Ha _].
    apply negb_true_iff in Ha. by rewrite Ha.
  - cbn [no_colon] in Hg. apply andb_true_iff in Hg as [Hb Hg].
    apply negb_true_iff in Hb. rewrite app_cons.
    destruct f as [|a f].
    + rewrite app_nil_l, HasPrefix_cons, Ascii.eqb_sym. by rewrite Hb.
    + rewrite app_cons, HasPrefix_cons.
      cbn [no_colon] in Hf. apply andb_true_iff in Hf as [_ Hf].
      destruct (Ascii.eqb_spec a b) as [->|]; [|done].
      intros H. f_equal. by apply IH.
Qed.

Lemma title_loop_block (ord : list (string * Value)) (rest v : string) :
  Forall (fun e => safe_entry e.1 e.2 = true) ord ->
  (forall x, ("title", x) ∈ ord -> x = VString v) ->
  ("title", VString v) ∈ ord ->
  v <> EmptyString ->
  title_loop (header_block ord +:+ rest) = Ok v.
Proof.
  intros Hall. revert rest. induction Hall as [|[f x] ord He _ IH];
    intros rest Hfun Hin Hv.
  - by apply elem_of_nil in Hin.
  - cbn [header_block entry_line]. cbn [fst snd] in He.
    unfold safe_entry in He. destruct x as [v'| | |]; try done.
    apply andb_true_iff in He as [_ He].
    destruct (String.eqb_spec f "text") as [->|Htext].
    { rewrite app_nil_l. apply IH; [|by apply elem_of_cons in Hin as [[=]|]|done].
      intros x Hx. apply Hfun. by apply elem_of_cons; right. }
    apply andb_true_iff in He as [He Htrim].
    apply andb_true_iff in He as [He Hv'].
    apply andb_true_iff in He as [Hf Hc].
    apply String.eqb_eq in Htrim.
    cbv iota. rewrite title_loop_step.
    replace (((f +:+ ": " +:+ v' +:+ LF) +:+ header_block ord) +:+ rest)
      with ((f +:+ ": " +:+ v') +:+ LF +:+ header_block ord +:+ rest)
      by (by rewrite !app_assoc).
    rewrite ReadString_line by (rewrite !no_nl_app, Hf, Hv'; reflexivity).
    replace ((f +:+ ": " +:+ v') +:+ LF)
      with (f +:+ String colon (" " +:+ v' +:+ LF))
      by (by rewrite !app_assoc).
    rewrite colon_not_whitespace by (by rewrite IndexByte_app).
    destruct (String.eqb_spec f "title") as [->|Htitle].
    + assert (v' = v) as ->.
      { assert (VString v' = VString v) as [= ->]; [|done].
        apply Hfun. by apply elem_of_cons; left. }
      change (HasPrefix ("title" +:+ String colon (" " +:+ v +:+ LF)) "title:")
        with true. cbn match.
      change (title_of_line ("title" +:+ String colon (" " +:+ v +:+ LF)))
        with (TrimSpace (" " +:+ v +:+ LF)).
      rewrite TrimSpace_header_value by done.
      by destruct (String.eqb_spec v EmptyString).
    + destruct (HasPrefix _ "title:") eqn:Hp.
      { exfalso. apply Htitle.
        by apply (HasPrefix_name_inj f "title" (" " +:+ v' +:+ LF)). }
      apply IH; [|by apply elem_of_cons in Hin as [[=]|]|done].
      intros x Hx. apply Hfun. by apply elem_of_cons; right.
Qed.

(** X6.  The title peek of an encoded record answers the title of the record,
    for a record the line encoding carries unchanged and a title that is
    not empty, whatever the order of the map range in [Write]. *)
Theorem peek_of_Write (t : Tiddler) (ord : list (string * Value)) (v : string) :
  roundtrip_safe t ->
  ord ≡ₚ map_to_list t ->
  t !! "title" = Some (VString v) ->
  v <> EmptyString ->
  exists out,
    Write_buf t ord = Ok out /\ getTiddlerFileTile (Some out) = Ok v.
Proof.
  intros Hsafe Hord Ht Hv. pose proof (range_safe t ord Hsafe Hord) as Hall.
  assert (forall rest, title_loop (header_block ord +:+ rest) = Ok v) as Hpeek.
  { intros rest. apply title_loop_block; [done| |by rewrite Hord, elem_of_map_to_list|done].
    intros x Hx. rewrite Hord in Hx. apply elem_of_map_to_list in Hx. congruence. }
  unfold Write_buf. rewrite write_range_ok, app_nil_l by done.
  destruct (t !! "text") as [x|] eqn:Etext.
  - pose proof (Hsafe _ _ Etext) as Hx. unfold safe_entry in Hx.
    destruct x as [txt| | |]; try done.
    eexists; split; [reflexivity|]. cbn [getTiddlerFileTile].
    rewrite app_assoc. apply Hpeek.
  - eexists; split; [reflexivity|]. apply Hpeek.
Qed.

Lemma peek_of_Write_witness :
  exists out,
    Write_buf tiddler_tagged
      [("tags", VString "one [[two words]]"); ("text", VString "hello");
       ("title", VString "My Tiddler")] = Ok out
    /\ getTiddlerFileTile (Some out) = Ok "My Tiddler".
Proof.
  apply peek_of_Write.
  - apply (bool_decide_unpack _). vm_compute. exact I.
  - let l := eval vm_compute in (map_to_list tiddler_tagged) in
    change (map_to_list tiddler_tagged) with l.
    etrans; [apply Permutation_swap|]. apply perm_skip, Permutation_swap.
  - reflexivity.
  - discriminate.
Defined.

(** * Further properties of the store layer *)

(** ** File names *)

Lemma string_app_length (s t : string) :
  String.length (s +:+ t) = String.length s + String.length t.
Proof.
  induction s as [|c s IH]; [done|]. rewrite app_cons. cbn. by rewrite IH.
Qed.

Lemma app_inv_tail (a b suffix : string) :
  a +:+ suffix = b +:+ suffix -> a = b.
Proof.
  revert b. induction a as [|x a IH]; intros [|y b] H; [done| | |].
  - apply (f_equal String.length) in H.
    rewrite !string_app_length in H. cbn in H. lia.
  - apply (f_equal String.length) in H.
    rewrite !string_app_length in H. cbn in H. lia.
  - rewrite !app_cons in H. injection H as -> H. f_equal. by apply IH.
Qed.

Lemma replaceSpecial_clean (s : string) : has_special (replaceSpecial s) = false.
Proof.
  induction s as [|a s IH]; [done|]. cbn [replaceSpecial has_special].
  rewrite IH, orb_false_r. by destruct (reTiddlerFilename a) eqn:E.
Qed.

Lemma replaceSpecial_id (s : string) :
  has_special s = false -> replaceSpecial s = s.
Proof.
  induction s as [|a s IH]; [done|]. cbn [replaceSpecial has_special].
  intros [Ha Hs]%orb_false_iff. by rewrite Ha, IH.
Qed.

Lemma replaceSpecial_changes (s : string) :
  has_special s = true -> replaceSpecial s <> s.
Proof.
  intros Hs E. rewrite <- E in Hs. by rewrite replaceSpecial_clean in Hs.
Qed.

(** X7.  Two titles share a file exactly when they are equal after every
    slash, colon and double quote is replaced by an underscore; so a title
    with such a byte always shares its file with another title. *)
Theorem tiddlerFilename_collisions :
  (forall a b, tiddlerFilename a = tiddlerFilename b
               <-> replaceSpecial a = replaceSpecial b)
  /\ (forall title, has_special title = true ->
        replaceSpecial title <> title
        /\ tiddlerFilename (replaceSpecial title) = tiddlerFilename title).
Proof.
  split.
  - intros a b. unfold tiddlerFilename. split; [apply app_inv_tail | by intros ->].
  - intros title Hs. split; [by apply replaceSpecial_changes|].
    unfold tiddlerFilename. f_equal. apply replaceSpecial_id, replaceSpecial_clean.
Qed.

Lemma tiddlerFilename_collisions_witness :
  replaceSpecial "$:/config" <> "$:/config"
  /\ tiddlerFilename (replaceSpecial "$:/config") = tiddlerFilename "$:/config".
Proof.
  destruct tiddlerFilename_collisions as [_ H]. apply H. reflexivity.
Defined.

(** X8.  The file name of a title holds no slash, colon or double quote; for
    a title with none of them it is the title followed by [.tid], and no
    two such titles share a file. *)
Theorem tiddlerFilename_clean :
  (forall title, has_special (tiddlerFilename title) = false)
  /\ (forall title, has_special title = false ->
        tiddlerFilename title = title +:+ ".tid")
  /\ (forall a b, has_special a = false -> has_special b = false ->
        tiddlerFilename a = tiddlerFilename b -> a = b).
Proof.
  split; [|split].
  - intros title. unfold tiddlerFilename.
    induction title as [|a s IH]; [done|].
    cbn [replaceSpecial]. rewrite app_cons. cbn [has_special].
    rewrite IH, orb_false_r. by destruct (reTiddlerFilename a) eqn:E.
  - intros title Hs. unfold tiddlerFilename. by rewrite replaceSpecial_id.
  - intros a b Ha Hb. unfold tiddlerFilename.
    rewrite !replaceSpecial_id by done. apply app_inv_tail.
Qed.

Lemma tiddlerFilename_clean_witness :
  tiddlerFilename "Hello World" = "Hello World.tid".
Proof.
  destruct tiddlerFilename_clean as (_ & H & _). apply H. reflexivity.
Defined.

Lemma rev_app_spec (s acc : string) :
  String.rev_app s acc = String.rev s +:+ acc.
Proof.
  unfold String.rev. revert acc. induction s as [|a s IH]; intros acc; [done|].
  cbn [String.rev_app]. rewrite IH, (IH (String a EmptyString)).
  by rewrite app_assoc.
Qed.

Lemma rev_app_distr (s t : string) :
  String.rev (s +:+ t) = String.rev t +:+ String.rev s.
Proof.
  unfold String.rev at 1. rewrite rev_app_app, rev_app_spec. reflexivity.
Qed.

Lemma HasPrefix_app_cancel (p s q : string) :
  HasPrefix (p +:+ s) (p +:+ q) = HasPrefix s q.
Proof.
  induction p as [|a p IH]; [done|].
  by rewrite !app_cons, HasPrefix_cons, Ascii.eqb_refl.
Qed.

Lemma HasSuffix_app (x suffix : string) : HasSuffix (x +:+ suffix) suffix = true.
Proof. unfold HasSuffix. rewrite rev_app_distr. apply HasPrefix_app. Qed.

Lemma HasSuffix_app_cancel (x y suffix : string) :
  HasSuffix (x +:+ suffix) (y +:+ suffix) = HasSuffix x y.
Proof. unfold HasSuffix. rewrite !rev_app_distr. apply HasPrefix_app_cancel. Qed.

Lemma TrimSuffix_app (x suffix : string) : TrimSuffix (x +:+ suffix) suffix = x.
Proof.
  unfold TrimSuffix. rewrite HasSuffix_app, string_app_length.
  replace (String.length x + String.length suffix - String.length suffix)
    with (String.length x) by lia.
  apply slice_to_app.
Qed.

(** Whether the walk of the file store will pick up the file that
    [WriteTiddler] creates for a title: it does, unless the title is empty
    or starts with a dot (the file is then hidden), or the title ends like
    the one excluded plugin. *)
Theorem isTiddlerFile_of_tiddlerFilename (title : string) :
  isTiddlerFile (tiddlerFilename title)
  = negb (String.eqb title EmptyString)
    && negb (HasPrefix title ".")
    && negb (HasSuffix (replaceSpecial title)
               "$__plugins_tobibeer_rate_styles_imgfix").
Proof.
  unfold isTiddlerFile.
  assert (HasSuffix (tiddlerFilename title) ".tid" = true) as ->
    by apply HasSuffix_app.
  assert (HasSuffix (tiddlerFilename title)
            "$__plugins_tobibeer_rate_styles_imgfix.tid"
          = HasSuffix (replaceSpecial title)
              "$__plugins_tobibeer_rate_styles_imgfix") as ->.
  { apply (HasSuffix_app_cancel _ "$__plugins_tobibeer_rate_styles_imgfix" ".tid"). }
  assert (HasPrefix (tiddlerFilename title) "."
          = String.eqb title EmptyString || HasPrefix title ".") as ->.
  { unfold tiddlerFilename. destruct title as [|a t]; [done|].
    cbn [replaceSpecial]. rewrite app_cons.
    change "." with (String "."%char EmptyString). rewrite !HasPrefix_cons.
    cbn [String.eqb orb HasPrefix].
    destruct (reTiddlerFilename a) eqn:Ha; [|done].
    destruct (Ascii.eqb_spec a "."%char) as [->|]; done. }
  cbn [negb andb orb].
  destruct (String.eqb title EmptyString), (HasPrefix title "."),
    (HasSuffix (replaceSpecial title) _); done.
Qed.

(** ** Reading one location *)

(** X9.  A location that does not end in [.meta] costs one backend read and
    yields what the decoder makes of its bytes.  A location [base.meta]
    whose bytes decode costs a second read, of [base]: the text of the
    record is then all the bytes of [base], as bytes for a binary type and
    as a string otherwise, whatever text the sidecar held; if [base]
    cannot be opened the read fails.  A location that cannot be opened
    costs one read and yields the error, with the location in its
    message. *)
Theorem readTiddlerFileWithReadCloser_locations (path : string)
    (reader : string -> Res string) :
  (HasSuffix path ".meta" = false ->
   forall f, reader path = Ok f ->
     readTiddlerFileWithReadCloser path reader
     = ([BRead path], TiddlerFile_Read (Some f)))
  /\ (forall base f tid,
        path = base +:+ ".meta" ->
        reader path = Ok f ->
        TiddlerFile_Read (Some f) = Ok tid ->
        (readTiddlerFileWithReadCloser path reader).1 = [BRead path; BRead base]
        /\ (forall b ty,
              reader base = Ok b ->
              tid !! "type" = Some (VString ty) ->
              (readTiddlerFileWithReadCloser path reader).2
              = Ok (<["text" := if reBinaryType ty then VBytes b else VString b]>
                      tid))
        /\ (forall e,
              reader base = Err e ->
              (readTiddlerFileWithReadCloser path reader).2
              = Err ("could not open file '" +:+ base +:+ "': " +:+ e)))
  /\ (forall e, reader path = Err e ->
        readTiddlerFileWithReadCloser path reader
        = ([BRead path], Err ("could not open file '" +:+ path +:+ "': " +:+ e))).
Proof.
  split; [|split].
  - intros Hs f Hf. unfold readTiddlerFileWithReadCloser. rewrite Hf, Hs.
    destruct (TiddlerFile_Read (Some f)) as [tid|e|] eqn:E; [done| |done].
    cbn [TiddlerFile_Read] in E.
    destruct (Read_loop f ∅) as [t|e'|] eqn:El; [done| |done].
    by destruct (Read_loop_never_errs f ∅ e').
  - intros base f tid -> Hf Ht. unfold readTiddlerFileWithReadCloser.
    rewrite Hf, Ht, HasSuffix_app, TrimSuffix_app.
    split; [by destruct (reader base)|]. split.
    + intros b ty -> ->. cbn [snd]. by destruct (reBinaryType ty).
    + by intros e ->.
  - intros e He. unfold readTiddlerFileWithReadCloser. by rewrite He.
Qed.

Lemma readTiddlerFileWithReadCloser_locations_witness :
  readTiddlerFileWithReadCloser "wiki/tiddlers/A.tid"
    (newReader (file_backend wiki_A []))
  = ([BRead "wiki/tiddlers/A.tid"],
     TiddlerFile_Read (Some ("title: A" +:+ LF +:+ LF +:+ "hello")))
  /\ (readTiddlerFileWithReadCloser "wiki/tiddlers/pic.png.meta"
        (newReader (file_backend wiki_meta []))).1
     = [BRead "wiki/tiddlers/pic.png.meta"; BRead "wiki/tiddlers/pic.png"].
Proof.
  split.
  - by apply (proj1 (readTiddlerFileWithReadCloser_locations
                       "wiki/tiddlers/A.tid" (newReader (file_backend wiki_A [])))).
  - eapply proj1.
    eapply (proj1 (proj2 (readTiddlerFileWithReadCloser_locations
                            "wiki/tiddlers/pic.png.meta"
                            (newReader (file_backend wiki_meta []))))
              "wiki/tiddlers/pic.png"); reflexivity.
Defined.

(** ** The index build *)





Lemma index_paths_consistent (reader : string -> Res string)
    (paths seen : list string) (acc b : Built) :
  (forall title p, built_index acc !! title = Some p ->
     p ∈ seen /\ exists tid, built_cache acc !! title = Some tid
       /\ (readTiddlerFileWithReadCloser p reader).2 = Ok tid
       /\ tid !! "title" = Some (VString title)) ->
  built_log acc = omap (read_error reader) seen ->
  index_paths reader paths acc = Ok b ->
  (forall title p, built_index b !! title = Some p ->
     p ∈ seen ++ paths /\ exists tid, built_cache b !! title = Some tid
       /\ (readTiddlerFileWithReadCloser p reader).2 = Ok tid
       /\ tid !! "title" = Some (VString title))
  /\ built_log b = omap (read_error reader) (seen ++ paths).
Proof.
  revert seen acc. induction paths as [|q paths IH]; intros seen acc Hinv Hlog.
  - intros [= <-]. by rewrite List.app_nil_r.
  - cbn [index_paths].
    destruct (index_path reader q acc) as [acc1|e|] eqn:E; [|done..].
    intros Hb. replace (seen ++ q :: paths) with ((seen ++ [q]) ++ paths)
      by (by rewrite <- List.app_assoc).
    apply (IH (seen ++ [q]) acc1); [| |done]; clear IH Hb.
    + unfold index_path in E.
      destruct (readTiddlerFileWithReadCloser q reader) as [calls r] eqn:Er.
      assert (forall title p,
                 built_index acc !! title = Some p ->
                 p ∈ seen ++ [q] /\ exists tid, built_cache acc !! title = Some tid
                   /\ (readTiddlerFileWithReadCloser p reader).2 = Ok tid
                   /\ tid !! "title" = Some (VString title)) as Hold.
      { intros title p Hp. destruct (Hinv title p Hp) as [Hin Hrest].
        split; [|done]. apply elem_of_app. by left. }
      destruct r as [tid|e|]; [| |done].
      * destruct (tid !! "title") as [[t'| | |]|] eqn:Et; try done.
        -- injection E as <-. cbn. intros title p.
           destruct (decide (t' = title)) as [->|Hne].
           ++ rewrite !lookup_insert_eq. intros [= <-]. split.
              ** apply elem_of_app. right. by apply list_elem_of_singleton.
              ** exists tid. by rewrite Er.
           ++ rewrite !lookup_insert_ne by done. apply Hold.
        -- by injection E as <-.
      * by injection E as <-.
    + rewrite omap_app.
      change (omap (read_error reader) [q])
        with (match read_error reader q with Some y => [y] | None => [] end).
      unfold read_error. revert E. unfold index_path.
      destruct (readTiddlerFileWithReadCloser q reader) as [calls [tid|e|]];
        [| |done]; cbn [snd].
      * rewrite List.app_nil_r.
        destruct (tid !! "title") as [[t'| | |]|]; try done; by intros [= <-].
      * intros [= <-]. cbn. by rewrite Hlog.
Qed.

(** X11.  What a successful build holds: every indexed location was walked;
    the record cached under a title is the one decoded at the location
    indexed for it, and carries that title; the log holds the errors of
    the failed reads, in the order of their commits, and nothing else. *)
Theorem buildCacheAndIndex_consistent (reader : string -> Res string)
    (paths : list string) (b : Built) :
  buildCacheAndIndex (Ok paths) reader = Ok b ->
  (forall title p, built_index b !! title = Some p ->
     p ∈ paths /\ exists tid, built_cache b !! title = Some tid
       /\ (readTiddlerFileWithReadCloser p reader).2 = Ok tid
       /\ tid !! "title" = Some (VString title))
  /\ built_log b = omap (read_error reader) paths.
Proof.
  intros Hb. cbn [buildCacheAndIndex] in Hb.
  apply (index_paths_consistent reader paths [] (mkBuilt ∅ ∅ []) b); [|done..].
  intros title p. cbn [built_index]. by rewrite lookup_empty.
Qed.

Lemma buildCacheAndIndex_consistent_witness :
  exists b,
    buildCacheAndIndex (Ok ["wiki/tiddlers/gone.tid"; "wiki/tiddlers/A.tid"])
      (newReader (file_backend wiki_A [])) = Ok b
    /\ built_log b
       = omap (read_error (newReader (file_backend wiki_A [])))
           ["wiki/tiddlers/gone.tid"; "wiki/tiddlers/A.tid"].
Proof.
  destruct (buildCacheAndIndex
              (Ok ["wiki/tiddlers/gone.tid"; "wiki/tiddlers/A.tid"])
              (newReader (file_backend wiki_A []))) as [b|e|] eqn:E;
    [|discriminate E..].
  exists b. split; [reflexivity|].
  apply (buildCacheAndIndex_consistent _ _ _ E).
Defined.

(** ** The full listing *)





(** * Decoded records under the encoder *)

(** ** More on trimming *)

Lemma TrimLeft_idem_aux (n : nat) (s : string) :
  String.length s <= n -> TrimLeft (TrimLeft s) = TrimLeft s.
Proof.
  revert s. induction n as [|n IH]; intros s Hn.
  { destruct s; [done|simpl in Hn; lia]. }
  destruct s as [|a s1]; [done|]. simpl in Hn.
  rewrite (TrimLeft_cons a s1).
  destruct (isSpace1 a) eqn:E1; [apply IH; lia|].
  destruct s1 as [|b s2].
  { by rewrite TrimLeft_cons, E1. }
  simpl in Hn.
  destruct (isSpace2 a b) eqn:E2; [apply IH; lia|].
  destruct s2 as [|c s3].
  { by rewrite TrimLeft_cons, E1, E2. }
  simpl in Hn.
  destruct (isSpace3 a b c) eqn:E3; [apply IH; lia|].
  by rewrite TrimLeft_cons, E1, E2, E3.
Qed.

Lemma TrimLeft_idem (s : string) : TrimLeft (TrimLeft s) = TrimLeft s.
Proof. by apply (TrimLeft_idem_aux (String.length s)). Qed.

Lemma TrimLeftRev_idem_aux (n : nat) (s : string) :
  String.length s <= n -> TrimLeftRev (TrimLeftRev s) = TrimLeftRev s.
Proof.
  revert s. induction n as [|n IH]; intros s Hn.
  { destruct s; [done|simpl in Hn; lia]. }
  destruct s as [|a s1]; [done|]. simpl in Hn.
  rewrite (TrimLeftRev_cons a s1).
  destruct (isSpace1 a) eqn:E1; [apply IH; lia|].
  destruct s1 as [|b s2].
  { by rewrite TrimLeftRev_cons, E1. }
  simpl in Hn.
  destruct (isSpace2 b a) eqn:E2; [apply IH; lia|].
  destruct s2 as [|c s3].
  { by rewrite TrimLeftRev_cons, E1, E2. }
  simpl in Hn.
  destruct (isSpace3 c b a) eqn:E3; [apply IH; lia|].
  by rewrite TrimLeftRev_cons, E1, E2, E3.
Qed.

Lemma TrimLeft_suffix_aux (n : nat) (s : string) :
  String.length s <= n -> exists p, s = p +:+ TrimLeft s.
Proof.
  revert s. induction n as [|n IH]; intros s Hn.
  { destruct s; [by exists EmptyString|simpl in Hn; lia]. }
  destruct s as [|a s1]; [by exists EmptyString|]. simpl in Hn.
  rewrite (TrimLeft_cons a s1).
  destruct (isSpace1 a).
  { destruct (IH s1) as [p Hp]; [lia|].
    exists (String a p). by rewrite app_cons, <- Hp. }
  destruct s1 as [|b s2]; [by exists EmptyString|]. simpl in Hn.
  destruct (isSpace2 a b).
  { destruct (IH s2) as [p Hp]; [lia|].
    exists (String a (String b p)). by rewrite !app_cons, <- Hp. }
  destruct s2 as [|c s3]; [by exists EmptyString|]. simpl in Hn.
  destruct (isSpace3 a b c); [|by exists EmptyString].
  destruct (IH s3) as [p Hp]; [lia|].
  exists (String a (String b (String c p))). by rewrite !app_cons, <- Hp.
Qed.

Lemma TrimLeft_suffix (s : string) : exists p, s = p +:+ TrimLeft s.
Proof. by apply (TrimLeft_suffix_aux (String.length s)). Qed.

Lemma TrimLeftRev_suffix_aux (n : nat) (s : string) :
  String.length s <= n -> exists p, s = p +:+ TrimLeftRev s.
Proof.
  revert s. induction n as [|n IH]; intros s Hn.
  { destruct s; [by exists EmptyString|simpl in Hn; lia]. }
  destruct s as [|a s1]; [by exists EmptyString|]. simpl in Hn.
  rewrite (TrimLeftRev_cons a s1).
  destruct (isSpace1 a).
  { destruct (IH s1) as [p Hp]; [lia|].
    exists (String a p). by rewrite app_cons, <- Hp. }
  destruct s1 as [|b s2]; [by exists EmptyString|]. simpl in Hn.
  destruct (isSpace2 b a).
  { destruct (IH s2) as [p Hp]; [lia|].
    exists (String a (String b p)). by rewrite !app_cons, <- Hp. }
  destruct s2 as [|c s3]; [by exists EmptyString|]. simpl in Hn.
  destruct (isSpace3 c b a); [|by exists EmptyString].
  destruct (IH s3) as [p Hp]; [lia|].
  exists (String a (String b (String c p))). by rewrite !app_cons, <- Hp.
Qed.

Lemma rev_involutive (s : string) : String.rev (String.rev s) = s.
Proof.
  induction s as [|a s IH]; [done|].
  change (String a s) with (String a EmptyString +:+ s) at 1.
  rewrite rev_app_distr, rev_app_distr. by rewrite IH.
Qed.

Lemma TrimRight_prefix (s : string) : exists t, s = TrimRight s +:+ t.
Proof.
  unfold TrimRight.
  destruct (TrimLeftRev_suffix_aux _ (String.rev s) (le_n _)) as [p Hp].
  exists (String.rev p).
  rewrite <- rev_app_distr, <- Hp. by rewrite rev_involutive.
Qed.

Lemma TrimRight_idem (s : string) : TrimRight (TrimRight s) = TrimRight s.
Proof.
  unfold TrimRight. rewrite rev_involutive.
  by rewrite (TrimLeftRev_idem_aux _ _ (le_n _)).
Qed.

(** A prefix of a string that starts with no white space starts with
    none. *)
Lemma TrimLeft_prefix_fixed (w t : string) :
  TrimLeft (w +:+ t) = w +:+ t -> TrimLeft w = w.
Proof.
  destruct w as [|a w1]; [done|]. rewrite app_cons.
  rewrite (TrimLeft_cons a (w1 +:+ t)), (TrimLeft_cons a w1).
  destruct (isSpace1 a).
  { intros H. pose proof (TrimLeft_length (w1 +:+ t)) as Hl.
    rewrite H in Hl. simpl in Hl. lia. }
  destruct w1 as [|b w2]; [done|]. rewrite app_cons.
  destruct (isSpace2 a b).
  { intros H. pose proof (TrimLeft_length (w2 +:+ t)) as Hl.
    rewrite H in Hl. simpl in Hl. lia. }
  destruct w2 as [|c w3]; [done|]. rewrite app_cons.
  destruct (isSpace3 a b c); [|done].
  intros H. pose proof (TrimLeft_length (w3 +:+ t)) as Hl.
  rewrite H in Hl. simpl in Hl. lia.
Qed.

Lemma TrimSpace_idem (s : string) : TrimSpace (TrimSpace s) = TrimSpace s.
Proof.
  unfold TrimSpace.
  destruct (TrimRight_prefix (TrimLeft s)) as [t Ht].
  assert (TrimLeft (TrimRight (TrimLeft s)) = TrimRight (TrimLeft s)) as ->.
  { apply (TrimLeft_prefix_fixed _ t). rewrite <- Ht. apply TrimLeft_idem. }
  apply TrimRight_idem.
Qed.

Lemma TrimLeft_app_LF_aux (n : nat) (x : string) :
  String.length x <= n ->
  TrimLeft (x +:+ LF) =
  if String.eqb (TrimLeft x) EmptyString then EmptyString else TrimLeft x +:+ LF.
Proof.
  revert x. induction n as [|n IH]; intros x Hn.
  { destruct x; [done|simpl in Hn; lia]. }
  destruct x as [|a x1]; [done|]. simpl in Hn.
  rewrite app_cons, (TrimLeft_cons a (x1 +:+ LF)), (TrimLeft_cons a x1).
  destruct (isSpace1 a); [apply IH; lia|].
  destruct x1 as [|b x2].
  { rewrite app_nil_l. unfold LF. by rewrite isSpace2_nl. }
  simpl in Hn. rewrite app_cons.
  destruct (isSpace2 a b); [apply IH; lia|].
  destruct x2 as [|c x3].
  { rewrite app_nil_l. unfold LF. by rewrite isSpace3_nl. }
  simpl in Hn. rewrite app_cons.
  destruct (isSpace3 a b c); [apply IH; lia|]. done.
Qed.

Lemma TrimSpace_app_LF (x : string) : TrimSpace (x +:+ LF) = TrimSpace x.
Proof.
  unfold TrimSpace. rewrite (TrimLeft_app_LF_aux _ x (le_n _)).
  destruct (String.eqb_spec (TrimLeft x) EmptyString) as [->|_]; [done|].
  apply TrimRight_app_nl.
Qed.

Lemma no_nl_TrimSpace (x : string) : no_nl x = true -> no_nl (TrimSpace x) = true.
Proof.
  intros H. unfold TrimSpace.
  destruct (TrimLeft_suffix x) as [p Hp].
  destruct (TrimRight_prefix (TrimLeft x)) as [t Ht].
  rewrite Hp, Ht, !no_nl_app in H.
  by destruct (no_nl p), (no_nl (TrimRight (TrimLeft x))).
Qed.

(** ** The lines the decoder sees *)

Lemma ReadString_one_line (r : string) : one_line (ReadString r).1.1 = true.
Proof.
  induction r as [|a r IH]; [done|]. cbn [ReadString].
  destruct (Ascii.eqb a nl) eqn:Ea.
  - cbn. by rewrite Ea.
  - destruct (ReadString r) as [[l b] e]. cbn in *. by rewrite Ea.
Qed.

Lemma one_line_cases (l : string) :
  one_line l = true ->
  no_nl l = true \/ exists x, l = x +:+ LF /\ no_nl x = true.
Proof.
  induction l as [|a l IH]; [by left|]. cbn [one_line no_nl].
  destruct (Ascii.eqb a nl) eqn:Ea.
  - intros H. apply String.eqb_eq in H as ->. right. exists EmptyString.
    apply Ascii.eqb_eq in Ea as ->. done.
  - intros H. destruct (IH H) as [Hl|(x & -> & Hx)].
    + left. by rewrite Hl.
    + right. exists (String a x). cbn [no_nl]. by rewrite Ea, Hx.
Qed.

Lemma one_line_split (n raw : string) :
  one_line (n +:+ String colon raw) = true ->
  no_nl n = true /\ one_line raw = true.
Proof.
  induction n as [|a n IH].
  - rewrite app_nil_l. cbn [one_line]. done.
  - rewrite app_cons. cbn [one_line no_nl].
    destruct (Ascii.eqb a nl).
    + intros H. apply String.eqb_eq in H. by destruct n.
    + intros H. by apply IH.
Qed.

Lemma IndexByte_split (l : string) (idx : nat) :
  IndexByte l colon = Some idx ->
  l = slice_to idx l +:+ String colon (slice_from (S idx) l)
  /\ no_colon (slice_to idx l) = true.
Proof.
  revert idx. induction l as [|a l IH]; intros idx; [done|].
  cbn [IndexByte]. destruct (Ascii.eqb a colon) eqn:Ea.
  - intros [= <-]. apply Ascii.eqb_eq in Ea as ->. done.
  - destruct (IndexByte l colon) as [i|]; [|done]. intros [= <-].
    destruct (IH i eq_refl) as [Hl Hc]. cbn [slice_to slice_from no_colon].
    rewrite app_cons, Ea, Hc. split; [by f_equal | done].
Qed.

Lemma header_field_decoded (line name value : string) :
  one_line line = true ->
  header_field line = Some (name, value) ->
  decoded_entry name (VString value).
Proof.
  unfold header_field. intros Hl.
  destruct (IndexByte line colon) as [idx|] eqn:Ei; [|done].
  intros [= <- <-]. destruct (IndexByte_split _ _ Ei) as [Hs Hc].
  rewrite Hs in Hl. apply one_line_split in Hl as [Hn Hraw].
  eexists; split; [done|]. intros _. split; [done|]. split; [done|].
  split; [|apply TrimSpace_idem].
  change (no_nl (TrimSpace (slice_from (S idx) line)) = true).
  destruct (one_line_cases _ Hraw) as [H|(x & Hx & H)].
  - by apply no_nl_TrimSpace.
  - rewrite Hx, TrimSpace_app_LF. by apply no_nl_TrimSpace.
Qed.

Lemma Read_loop_decoded (r : string) (tid tid' : Tiddler) :
  map_Forall decoded_entry tid -> Read_loop r tid = Ok tid' ->
  map_Forall decoded_entry tid'.
Proof.
  revert tid. induction r as [r IH] using string_length_ind. intros tid Hs.
  rewrite Read_loop_step. pose proof (ReadString_one_line r) as Hl.
  destruct (ReadString r) as [[line b] eof] eqn:E. cbn in Hl.
  destruct (reWhitespaceOnly line).
  { intros [= <-]. destruct (0 <? String.length b); [|done].
    apply map_Forall_insert_2; [|done]. eexists; split; done. }
  destruct (header_field line) as [[name value]|] eqn:Eh; [|done].
  assert (map_Forall decoded_entry (<[name := VString value]> tid)) as Hs'.
  { apply map_Forall_insert_2; [|done]. by eapply header_field_decoded. }
  destruct eof; [by intros [= <-]|].
  apply IH; [by eapply ReadString_shorter | done].
Qed.

(** ** Encoding and decoding again *)

Lemma Write_buf_Read (t : Tiddler) (ord : list (string * Value)) :
  roundtrip_safe t ->
  ord ≡ₚ map_to_list t ->
  exists out : string,
    Write_buf t ord = Ok out
    /\ TiddlerFile_Read (Some out) = Ok (with_revision t).
Proof.
  intros Hsafe Hord. pose proof (range_safe t ord Hsafe Hord) as Hall.
  unfold Write_buf. rewrite write_range_ok, app_nil_l by done.
  assert (forall txt : string,
             (if 0 <? String.length txt
              then t !! "text" = Some (VString txt)
              else t !! "text" = None) ->
             TiddlerFile_Read (Some (header_block ord +:+ LF +:+ txt))
             = Ok (with_revision t)) as Hread.
  { intros txt Htxt. cbn [TiddlerFile_Read].
    rewrite Read_loop_block by done. cbn zeta.
    match goal with
    | |- context [Ok (match ?m !! "revision" with _ => _ end)] =>
        assert (m = t) as ->; [|done]
    end.
    apply map_eq. intros k. destruct (decide (k = "text")) as [->|Hk].
    - destruct (0 <? String.length txt).
      + by rewrite lookup_insert_eq.
      + by rewrite foldl_put_entry_text, lookup_empty.
    - destruct (0 <? String.length txt).
      + rewrite lookup_insert_ne by done. by apply foldl_put_entry_range.
      + by apply foldl_put_entry_range. }
  destruct (t !! "text") as [x|] eqn:Etext.
  - pose proof (Hsafe _ _ Etext) as Hx. unfold safe_entry in Hx.
    destruct x as [txt| | |]; try done.
    eexists; split; [reflexivity|].
    rewrite app_assoc. apply Hread.
    destruct txt; [done|]. done.
  - eexists; split; [reflexivity|].
    rewrite <- (app_nil_r (header_block ord +:+ LF)), app_assoc.
    by apply Hread.
Qed.

(** X13.  A decoded record is a fixed point of encoding and decoding: written
    out and read again it comes back unchanged, whatever the order of the
    map range in [Write], as long as no header line was named [fields]
    and the text is not the empty string. *)
Theorem Read_Write_Read_stable (r : string) (tid : Tiddler)
    (ord : list (string * Value)) :
  TiddlerFile_Read (Some r) = Ok tid ->
  tid !! "fields" = None ->
  tid !! "text" <> Some (VString EmptyString) ->
  ord ≡ₚ map_to_list tid ->
  exists out,
    Write_buf tid ord = Ok out /\ TiddlerFile_Read (Some out) = Ok tid.
Proof.
  intros Hr Hf Ht Hord.
  assert (map_Forall decoded_entry tid /\ is_Some (tid !! "revision")) as [Hd Hrev].
  { cbn [TiddlerFile_Read] in Hr.
    destruct (Read_loop r ∅) as [t|e|] eqn:E; [|done..].
    pose proof (Read_loop_decoded r ∅ t (map_Forall_empty _) E) as Hs.
    injection Hr as <-. destruct (t !! "revision") as [x|] eqn:Er.
    - split; [done | by rewrite Er].
    - split; [|by rewrite lookup_insert_eq].
      apply map_Forall_insert_2; [|done]. eexists; split; [done|].
      intros _. done. }
  assert (roundtrip_safe tid) as Hsafe.
  { intros f x Hfx. destruct (Hd f x Hfx) as (v & -> & Hv).
    unfold safe_entry.
    destruct (String.eqb_spec f "fields") as [->|_]; [congruence|].
    destruct (String.eqb_spec f "text") as [->|Hne].
    - destruct (String.eqb_spec v EmptyString) as [->|_]; [congruence|done].
    - destruct (Hv Hne) as (-> & -> & -> & ->). by rewrite String.eqb_refl. }
  destruct (Write_buf_Read tid ord Hsafe Hord) as (out & Hw & Hread).
  exists out. split; [done|]. rewrite Hread. f_equal.
  unfold with_revision. by destruct Hrev as [x ->].
Qed.

Lemma Read_Write_Read_stable_witness :
  exists out,
    Write_buf tiddler_A (map_to_list tiddler_A) = Ok out
    /\ TiddlerFile_Read (Some out) = Ok tiddler_A.
Proof.
  apply (Read_Write_Read_stable ("title: A" +:+ LF +:+ LF +:+ "hello")).
  - reflexivity.
  - reflexivity.
  - discriminate.
  - reflexivity.
Defined.

(** * When the encoder panics *)

Lemma write_fields_cases (m : list (string * Value)) (buf : string) :
  if forallb (fun e => is_string e.2) m
  then exists buf', write_fields m buf = Ok buf'
  else write_fields m buf = Panic.
Proof.
  revert buf. induction m as [|[f x] m IH]; intros buf.
  - by exists buf.
  - cbn [forallb write_fields]. destruct x; cbn [is_string andb]; try done.
    apply IH.
Qed.

Lemma write_range_head (f : string) (x : Value) (ord : list (string * Value))
    (buf : string) :
  if encodable f x || String.eqb f "text"
  then exists buf', write_range ((f, x) :: ord) buf = write_range ord buf'
  else write_range ((f, x) :: ord) buf = Panic.
Proof.
  cbn [write_range]. unfold encodable.
  destruct (String.eqb_spec f "fields") as [->|Hf].
  - cbn [String.eqb Ascii.eqb Bool.eqb orb]. destruct x; try done.
    pose proof (write_fields_cases m buf) as H.
    destruct (forallb _ m).
    + destruct H as [buf' ->]. by exists buf'.
    + by rewrite H.
  - destruct (String.eqb f "text").
    + rewrite orb_true_r. by exists buf.
    + rewrite orb_false_r. destruct x; try done. by eexists.
Qed.

Lemma write_range_encodable (ord : list (string * Value)) (buf : string) :
  Forall (fun e => encodable e.1 e.2 = true) ord ->
  exists buf', write_range ord buf = Ok buf'.
Proof.
  intros H. revert buf. induction H as [|[f x] ord Hx _ IH]; intros buf.
  - by exists buf.
  - pose proof (write_range_head f x ord buf) as Hh. cbn in Hx.
    rewrite Hx in Hh. destruct Hh as [buf' ->]. apply IH.
Qed.

Lemma write_range_never_errs (ord : list (string * Value)) (buf e : string) :
  write_range ord buf <> Err e.
Proof.
  revert buf. induction ord as [|[f x] ord IH]; intros buf; [done|].
  pose proof (write_range_head f x ord buf) as Hh.
  destruct (encodable f x || String.eqb f "text").
  - destruct Hh as [buf' ->]. apply IH.
  - by rewrite Hh.
Qed.

Lemma write_range_panics (ord : list (string * Value)) (buf : string) :
  Exists (fun e => encodable e.1 e.2 = false /\ e.1 <> "text") ord ->
  write_range ord buf = Panic.
Proof.
  intros H. revert buf. induction H as [[f x] ord [Hx Ht]|[f x] ord _ IH];
    intros buf.
  - pose proof (write_range_head f x ord buf) as Hh. cbn in Hx, Ht.
    rewrite Hx in Hh. by destruct (String.eqb_spec f "text").
  - pose proof (write_range_head f x ord buf) as Hh.
    destruct (encodable f x || String.eqb f "text"); [|done].
    destruct Hh as [buf' ->]. apply IH.
Qed.

(** X14.  The encoder never returns an error of its own.  It builds its
    buffer when every value is a string (under [fields], a nested map of
    strings), and panics when some value is not, whatever the order of
    the map range. *)
Theorem Write_buf_panics_iff (t : Tiddler) (ord : list (string * Value)) :
  ord ≡ₚ map_to_list t ->
  (map_Forall (fun f x => encodable f x = true) t ->
   exists out, Write_buf t ord = Ok out)
  /\ (~ map_Forall (fun f x => encodable f x = true) t ->
      Write_buf t ord = Panic)
  /\ (forall e, Write_buf t ord <> Err e).
Proof.
  intros Hord. split; [|split].
  - intros Hall.
    assert (Forall (fun e => encodable e.1 e.2 = true) ord) as Hf.
    { rewrite Hord. apply Forall_forall. intros [f x] Hin.
      apply elem_of_map_to_list in Hin. by apply Hall. }
    unfold Write_buf.
    destruct (write_range_encodable ord EmptyString Hf) as [buf ->].
    destruct (t !! "text") as [x|] eqn:Et; [|by eexists].
    apply Hall in Et. destruct x; try done. by eexists.
  - intros Hn. apply map_not_Forall in Hn as (f & x & Hfx & Hbad);
      [|intros; apply _].
    apply not_true_is_false in Hbad. unfold Write_buf.
    destruct (decide (f = "text")) as [->|Hne].
    + rewrite Hfx. unfold encodable in Hbad. cbn in Hbad.
      destruct (write_range ord EmptyString) as [buf|e|] eqn:Ew; [|..|done].
      * by destruct x.
      * by apply write_range_never_errs in Ew.
    + rewrite write_range_panics; [done|].
      apply Exists_exists. exists (f, x). split; [|done].
      rewrite Hord. by apply elem_of_map_to_list.
  - intros e. unfold Write_buf.
    destruct (write_range ord EmptyString) as [buf|e'|] eqn:Ew; [|..|done].
    + destruct (t !! "text") as [[]|]; done.
    + by apply write_range_never_errs in Ew.
Qed.

Lemma Write_buf_panics_iff_witness :
  (exists out, Write_buf tiddler_A (map_to_list tiddler_A) = Ok out)
  /\ Write_buf tiddler_picture (map_to_list tiddler_picture) = Panic.
Proof.
  split.
  - apply Write_buf_panics_iff; [reflexivity|].
    intros f x. unfold tiddler_A. rewrite !lookup_insert_Some, lookup_empty.
    intros [[<- <-]|[_ [[<- <-]|[_ [[<- <-]|[_ H]]]]]]; done.
  - apply Write_buf_panics_iff; [reflexivity|].
    intros H. specialize (H "text" (VBytes png_bytes) eq_refl). discriminate H.
Defined.

(** * Calls of the store, one after the other *)









(** ** The cache files every record under its own title *)



(** ** Writing, then deleting or listing *)





(** * The template list *)

(** ** The order of strings *)

Lemma Ascii_compare_refl (a : ascii) : Ascii.compare a a = Eq.
Proof. unfold Ascii.compare. apply N.compare_refl. Qed.

Lemma Ascii_compare_trans (a b c : ascii) :
  Ascii.compare a b = Lt -> Ascii.compare b c = Lt -> Ascii.compare a c = Lt.
Proof.
  unfold Ascii.compare. rewrite !N.compare_lt_iff. lia.
Qed.

Lemma String_ltb_trans (s t u : string) :
  String.ltb s t = true -> String.ltb t u = true -> String.ltb s u = true.
Proof.
  unfold String.ltb. revert t u.
  induction s as [|a s IH]; intros [|b t] [|c u]; cbn [String.compare]; try done.
  destruct (Ascii.compare a b) eqn:Eab; [|..|done].
  - apply Ascii.compare_eq_iff in Eab as ->.
    destruct (Ascii.compare b c); [|done..]. apply IH.
  - destruct (Ascii.compare b c) eqn:Ebc; [|..|done].
    + apply Ascii.compare_eq_iff in Ebc as <-. by rewrite Eab.
    + by rewrite (Ascii_compare_trans _ _ _ Eab Ebc).
Qed.

Lemma String_ltb_irrefl (s : string) : String.ltb s s = false.
Proof.
  unfold String.ltb. induction s as [|a s IH]; [done|].
  cbn [String.compare]. by rewrite Ascii_compare_refl.
Qed.

Lemma String_ltb_total (s t : string) :
  String.ltb s t = false -> s <> t -> String.ltb t s = true.
Proof.
  unfold String.ltb. rewrite (String.compare_antisym t s).
  destruct (String.compare s t) eqn:E; [|done..].
  intros _ H. by apply String.compare_eq_iff in E.
Qed.

(** ** The stable sort *)

Lemma insert_row_Permutation (r : Row) (l : list Row) :
  insert_row r l ≡ₚ r :: l.
Proof.
  induction l as [|x l IH]; [done|]. cbn [insert_row].
  destruct (String.ltb _ _); [|done].
  rewrite IH. apply Permutation_swap.
Qed.

Lemma SliceStable_Permutation (l : list Row) : SliceStable l ≡ₚ l.
Proof.
  induction l as [|x l IH]; [done|]. cbn [SliceStable foldr].
  rewrite insert_row_Permutation. by constructor.
Qed.

Lemma insert_row_Sorted (r : Row) (l : list Row) :
  Sorted name_lt l ->
  Forall (fun x => row_name x <> row_name r) l ->
  Sorted name_lt (insert_row r l).
Proof.
  induction l as [|x l IH]; intros Hs Hne.
  - by repeat constructor.
  - apply Sorted_inv in Hs as [Hs Hh]. apply Forall_cons in Hne as [Hx Hne].
    cbn [insert_row]. destruct (String.ltb (row_name x) (row_name r)) eqn:E.
    + constructor; [by apply IH|].
      destruct l as [|y l]; cbn [insert_row]; [by constructor|].
      destruct (String.ltb (row_name y) (row_name r)); constructor; [|done].
      by apply HdRel_inv in Hh.
    + constructor; [by constructor|]. constructor.
      by apply String_ltb_total.
Qed.

Lemma SliceStable_Sorted (l : list Row) :
  NoDup (row_name <$> l) -> Sorted name_lt (SliceStable l).
Proof.
  induction l as [|x l IH]; [constructor|].
  rewrite fmap_cons. intros [Hx Hl]%NoDup_cons. cbn [SliceStable foldr].
  apply insert_row_Sorted; [by apply IH|].
  apply Forall_forall. intros y Hy Heq. apply Hx.
  rewrite <- Heq. apply list_elem_of_fmap. exists y. split; [done|].
  by rewrite <- (SliceStable_Permutation l).
Qed.

Lemma SliceStable_unique (l1 l2 : list Row) :
  NoDup (row_name <$> l1) -> l1 ≡ₚ l2 -> SliceStable l1 = SliceStable l2.
Proof.
  intros Hnd Hp.
  assert (NoDup (row_name <$> l2)) as Hnd2 by (by rewrite <- Hp).
  assert (Transitive name_lt) as Htrans.
  { intros x y z. apply String_ltb_trans. }
  apply (Sorted_unique_strong name_lt).
  - intros x1 x2 _ _ H12 H21. unfold name_lt in *.
    pose proof (String_ltb_trans _ _ _ H12 H21) as H.
    by rewrite String_ltb_irrefl in H.
  - by apply SliceStable_Sorted.
  - by apply SliceStable_Sorted.
  - by rewrite !SliceStable_Permutation.
Qed.

Lemma template_rows_NoDup (m : Templates) :
  NoDup (row_name <$> (template_row <$> map_to_list m)).
Proof.
  rewrite <- list_fmap_compose.
  erewrite (list_fmap_ext _ fst); [|by intros].
  apply NoDup_fst_map_to_list.
Qed.

(** ** The pieces of a file name *)

Lemma Split_no_sep (s : string) (c : ascii) :
  IndexByte s c = None -> Split s c = [s].
Proof.
  induction s as [|a s IH]; [done|]. cbn [IndexByte Split].
  destruct (Ascii.eqb a c); [done|].
  destruct (IndexByte s c); [done|]. intros _. by rewrite IH.
Qed.

Lemma Split_sep (s : string) (c : ascii) (i : nat) :
  IndexByte s c = Some i -> exists x rest, Split s c = slice_to i s :: x :: rest.
Proof.
  revert i. induction s as [|a s IH]; intros i; [done|].
  cbn [IndexByte Split]. destruct (Ascii.eqb a c).
  - intros [= <-]. cbn [slice_to]. destruct (Split s c) as [|x rest] eqn:E.
    + by destruct s; cbn in E; [|destruct (Ascii.eqb _ _), (Split _ _)].
    + by exists x, rest.
  - destruct (IndexByte s c) as [j|]; [|done]. intros [= <-].
    destruct (IH j eq_refl) as (x & rest & ->). cbn [slice_to]. by exists x, rest.
Qed.

Lemma second_piece_None (filename : string) :
  second_piece filename = None <-> IndexByte filename dot = None.
Proof.
  unfold second_piece. split.
  - destruct (IndexByte filename dot) as [i|] eqn:E; [|done].
    by destruct (Split_sep _ _ _ E) as (x & rest & ->).
  - intros H. by rewrite Split_no_sep.
Qed.

(** ** The description *)

Lemma description_loop_step (r buf : string) :
  description_loop r buf =
  let '(line, b, eof) := ReadString r in
  if (eof : bool) then buf +:+ line else description_loop b (buf +:+ line).
Proof.
  funelim (description_loop r buf);
    match goal with E : ReadString _ = _ |- _ => rewrite E end;
    reflexivity.
Qed.

Lemma ReadString_app (r : string) :
  r = (ReadString r).1.1 +:+ (ReadString r).1.2
  /\ ((ReadString r).2 = true -> (ReadString r).1.2 = EmptyString).
Proof.
  induction r as [|a r [IH1 IH2]]; [done|]. cbn [ReadString].
  destruct (Ascii.eqb a nl); [done|].
  destruct (ReadString r) as [[l b] e]. cbn in *. split; [by rewrite IH1 at 1|done].
Qed.

Lemma description_loop_all (r buf : string) : description_loop r buf = buf +:+ r.
Proof.
  revert buf. induction r as [r IH] using string_length_ind. intros buf.
  rewrite description_loop_step. destruct (ReadString_app r) as [Hr He].
  destruct (ReadString r) as [[line b] eof] eqn:E. cbn in Hr, He.
  destruct eof.
  - rewrite (He eq_refl), app_nil_r in Hr. by rewrite <- Hr.
  - rewrite IH by (by eapply ReadString_shorter).
    by rewrite app_assoc, <- Hr.
Qed.

(** ** The loop over the folder *)

Lemma template_files_app (path : string) (open : string -> Res string)
    (l1 l2 : list DirEntry) (m : Templates) :
  template_files path open (l1 ++ l2) m =
  match template_files path open l1 m with
  | Ok m' => template_files path open l2 m'
  | r => r
  end.
Proof.
  revert m. induction l1 as [|[n d] l1 IH]; intros m; [done|].
  cbn [app template_files]. destruct d; [apply IH|].
  destruct (Split n dot !! 1) as [ext|]; [|done].
  destruct (String.eqb ext "txt"); [|apply IH].
  destruct (open _); [apply IH|done..].
Qed.

Lemma template_files_keeps_file (path : string) (open : string -> Res string)
    (post : list DirEntry) (m0 m : Templates) (n file d0 : string) :
  template_files path open post m0 = Ok m ->
  m0 !! n = Some (file, d0) ->
  Forall (fun e : DirEntry =>
            e.2 = false -> template_name e.1 = n ->
            second_piece e.1 = Some "txt") post ->
  exists d, m !! n = Some (file, d).
Proof.
  intros Hm H0 Hpost. revert m0 d0 Hm H0.
  induction Hpost as [|[fn dir] post Hx _ IH]; intros m0 d0.
  - intros [= <-] H0. by exists d0.
  - cbn [template_files]. destruct dir; [apply IH|].
    unfold second_piece, template_name in Hx. cbn [fst snd] in Hx.
    destruct (Split fn dot !! 1) as [ext|] eqn:Ee; [|done].
    destruct (decide (hd EmptyString (Split fn dot) = n)) as [Hn|Hn].
    + specialize (Hx eq_refl Hn). injection Hx as ->. cbn.
      destruct (open _) as [f|e|]; [|done..].
      intros Hm H0. apply (IH _ (description_loop f EmptyString) Hm).
      by rewrite Hn, H0, lookup_insert_eq.
    + destruct (String.eqb ext "txt").
      * destruct (open _) as [f|e|]; [|done..].
        intros Hm H0. apply (IH _ d0 Hm). by rewrite lookup_insert_ne.
      * intros Hm H0. apply (IH _ d0 Hm). by rewrite lookup_insert_ne.
Qed.

Lemma template_files_keeps_description (path : string)
    (open : string -> Res string) (post : list DirEntry) (m0 m : Templates)
    (n file0 d : string) :
  template_files path open post m0 = Ok m ->
  m0 !! n = Some (file0, d) ->
  Forall (fun e : DirEntry =>
            e.2 = false -> template_name e.1 = n ->
            second_piece e.1 <> Some "txt") post ->
  exists file, m !! n = Some (file, d).
Proof.
  intros Hm H0 Hpost. revert m0 file0 Hm H0.
  induction Hpost as [|[fn dir] post Hx _ IH]; intros m0 file0.
  - intros [= <-] H0. by exists file0.
  - cbn [template_files]. destruct dir; [apply IH|].
    unfold second_piece, template_name in Hx. cbn [fst snd] in Hx.
    destruct (Split fn dot !! 1) as [ext|] eqn:Ee; [|done].
    destruct (decide (hd EmptyString (Split fn dot) = n)) as [Hn|Hn].
    + specialize (Hx eq_refl Hn).
      destruct (String.eqb_spec ext "txt") as [->|_]; [done|].
      intros Hm H0. apply (IH _ fn Hm).
      by rewrite Hn, H0, lookup_insert_eq.
    + destruct (String.eqb ext "txt").
      * destruct (open _) as [f|e|]; [|done..].
        intros Hm H0. apply (IH _ file0 Hm). by rewrite lookup_insert_ne.
      * intros Hm H0. apply (IH _ file0 Hm). by rewrite lookup_insert_ne.
Qed.

Lemma template_files_names (path : string) (open : string -> Res string)
    (files : list DirEntry) (m0 m : Templates) (n : string) :
  template_files path open files m0 = Ok m ->
  is_Some (m !! n) ->
  is_Some (m0 !! n)
  \/ exists e : DirEntry, e ∈ files /\ e.2 = false /\ template_name e.1 = n.
Proof.
  revert m0. induction files as [|[fn dir] files IH]; intros m0.
  - intros [= <-]. by left.
  - cbn [template_files].
    assert (forall m1,
               template_files path open files m1 = Ok m ->
               (is_Some (m1 !! n) ->
                is_Some (m0 !! n) \/ template_name fn = n) ->
               dir = false ->
               is_Some (m !! n) ->
               is_Some (m0 !! n)
               \/ exists e : DirEntry,
                   e ∈ (fn, dir) :: files /\ e.2 = false /\ template_name e.1 = n)
      as Hstep.
    { intros m1 Hm H1 -> Hn. destruct (IH m1 Hm Hn) as [H|(e & He & Hd & Ht)].
      - destruct (H1 H) as [?|Ht]; [by left|]. right. exists (fn, false).
        split; [by left|done].
      - right. exists e. split; [by right|done]. }
    destruct dir.
    { intros Hm Hn. destruct (IH m0 Hm Hn) as [H|(e & He & Hd & Ht)]; [by left|].
      right. exists e. split; [by right|done]. }
    destruct (Split fn dot !! 1) as [ext|]; [|done].
    assert (forall v, is_Some (<[hd EmptyString (Split fn dot) := v]> m0 !! n) ->
              is_Some (m0 !! n) \/ template_name fn = n) as Hins.
    { intros v. destruct (decide (hd EmptyString (Split fn dot) = n)) as [Hn|Hn].
      - by right.
      - rewrite lookup_insert_ne by done. by left. }
    destruct (String.eqb ext "txt").
    + destruct (open _) as [f|e|]; [|done..].
      intros Hm. by apply (Hstep _ Hm (Hins _)).
    + intros Hm. by apply (Hstep _ Hm (Hins _)).
Qed.

Lemma template_files_head (path : string) (open : string -> Res string)
    (fn : string) (dir : bool) (files : list DirEntry) (m : Templates) :
  (exists m', template_files path open ((fn, dir) :: files) m
              = template_files path open files m'
              /\ (dir = false -> is_Some (second_piece fn)))
  \/ (template_files path open ((fn, dir) :: files) m = Panic)
  \/ (exists e, open (filepath_Join path fn) = Err e
                /\ template_files path open ((fn, dir) :: files) m
                   = Err ("could not open file '" +:+ fn +:+ "': " +:+ e)).
Proof.
  cbn [template_files]. unfold second_piece. destruct dir.
  { left. by exists m. }
  destruct (Split fn dot !! 1) as [ext|]; [|by right; left].
  destruct (String.eqb ext "txt").
  - destruct (open _) as [f|e|].
    + left. by eexists.
    + right. right. by exists e.
    + by right; left.
  - left. by eexists.
Qed.

Lemma rows_elem_of (range : Templates -> list (string * (string * string)))
    (m : Templates) (n file d : string) :
  range_ok range ->
  (n, file, d) ∈ SliceStable (template_row <$> range m) <-> m !! n = Some (file, d).
Proof.
  intros Hr. rewrite SliceStable_Permutation, (Hr m), list_elem_of_fmap. split.
  - intros ([k [f' d']] & [= -> -> ->] & Hin). by apply elem_of_map_to_list in Hin.
  - intros H. exists (n, (file, d)). split; [done|]. by apply elem_of_map_to_list.
Qed.

(** ** The answer *)

(** X20.  The answer does not depend on the order in which the range over the
    map yields the templates: no two rows share a name, so the stable
    sort settles the order.  The rows come in strictly increasing order
    of their names, as Go compares strings. *)
Theorem GetWikiTemplateList_range_order (readDir : Res (list DirEntry))
    (path : string) (open : string -> Res string)
    (range1 range2 : Templates -> list (string * (string * string))) :
  range_ok range1 ->
  range_ok range2 ->
  GetWikiTemplateList readDir path open range1
  = GetWikiTemplateList readDir path open range2
  /\ (forall rows,
        GetWikiTemplateList readDir path open range1 = Ok rows ->
        Sorted name_lt rows).
Proof.
  intros H1 H2. unfold GetWikiTemplateList.
  destruct readDir as [files|e|]; [|done..].
  destruct (template_files path open files ∅) as [m|e|]; [|done..].
  assert (NoDup (row_name <$> (template_row <$> range1 m))) as Hnd.
  { rewrite (H1 m). apply template_rows_NoDup. }
  split.
  - f_equal. apply SliceStable_unique; [done|]. by rewrite (H1 m), (H2 m).
  - intros rows [= <-]. by apply SliceStable_Sorted.
Qed.

Lemma GetWikiTemplateList_range_order_witness :
  GetWikiTemplateList (Ok templates_dir) "templates" templates_open map_to_list
  = GetWikiTemplateList (Ok templates_dir) "templates" templates_open
      (fun m => reverse (map_to_list m)).
Proof.
  eapply proj1. apply GetWikiTemplateList_range_order.
  - intros m. reflexivity.
  - intros m. apply reverse_Permutation.
Defined.

Lemma template_files_needs_dot (path : string) (open : string -> Res string)
    (files : list DirEntry) (m : Templates) :
  Exists (fun e : DirEntry => e.2 = false /\ IndexByte e.1 dot = None) files ->
  (forall m', template_files path open files m <> Ok m')
  /\ (Forall (fun e : DirEntry =>
                forall msg, open (filepath_Join path e.1) <> Err msg) files ->
      template_files path open files m = Panic).
Proof.
  intros H. revert m. induction H as [[fn dir] files [Hd Hi]|[fn dir] files _ IH];
    intros m.
  - cbn in Hd, Hi. subst dir. apply second_piece_None in Hi.
    unfold second_piece in Hi. cbn [template_files]. by rewrite Hi.
  - destruct (template_files_head path open fn dir files m)
      as [(m' & -> & _)|[->|(e & He & ->)]].
    + destruct (IH m') as [H1 H2]. split; [done|].
      intros [_ Hall]%Forall_cons. by apply H2.
    + done.
    + split; [done|]. intros [Hx _]%Forall_cons. by destruct (Hx e).
Qed.

(** X21.  A plain file with no dot in its name makes the listing fail: no
    list is returned, and the call panics unless a description file
    could not be opened. *)
Theorem GetWikiTemplateList_needs_dot (files : list DirEntry) (path : string)
    (open : string -> Res string)
    (range : Templates -> list (string * (string * string))) :
  Exists (fun e : DirEntry => e.2 = false /\ IndexByte e.1 dot = None) files ->
  (forall rows, GetWikiTemplateList (Ok files) path open range <> Ok rows)
  /\ (Forall (fun e : DirEntry =>
                forall msg, open (filepath_Join path e.1) <> Err msg) files ->
      GetWikiTemplateList (Ok files) path open range = Panic).
Proof.
  intros H. destruct (template_files_needs_dot path open files ∅ H) as [H1 H2].
  unfold GetWikiTemplateList. split.
  - intros rows. destruct (template_files path open files ∅) as [m|e|] eqn:E;
      [|done..]. by destruct (H1 m).
  - intros Hall. by rewrite (H2 Hall).
Qed.

Lemma GetWikiTemplateList_needs_dot_witness :
  GetWikiTemplateList (Ok [("blog.html", false); ("README", false)]) "templates"
    (fun _ => Ok "A blog.") map_to_list = Panic.
Proof.
  apply GetWikiTemplateList_needs_dot.
  - apply Exists_cons_tl, Exists_cons_hd. split; reflexivity.
  - apply Forall_forall. intros e _ msg. discriminate.
Defined.

(** X22.  The rows of the answer.  The file of a template is the last plain
    file of the folder with that template name whose second piece is not
    [txt]; its description is all the bytes of the last one whose second
    piece is [txt].  Every row stems from a plain file: a folder gives
    none. *)
Theorem GetWikiTemplateList_rows (pre post : list DirEntry) (name path : string)
    (open : string -> Res string)
    (range : Templates -> list (string * (string * string)))
    (rows : list Row) :
  range_ok range ->
  GetWikiTemplateList (Ok (pre ++ (name, false) :: post)) path open range
  = Ok rows ->
  (second_piece name <> Some "txt" ->
   Forall (fun e : DirEntry =>
             e.2 = false -> template_name e.1 = template_name name ->
             second_piece e.1 = Some "txt") post ->
   exists d, (template_name name, name, d) ∈ rows)
  /\ (second_piece name = Some "txt" ->
      Forall (fun e : DirEntry =>
                e.2 = false -> template_name e.1 = template_name name ->
                second_piece e.1 <> Some "txt") post ->
      exists file f,
        open (filepath_Join path name) = Ok f
        /\ (template_name name, file, f) ∈ rows)
  /\ (forall r, r ∈ rows ->
        exists e : DirEntry,
          e ∈ pre ++ (name, false) :: post
          /\ e.2 = false /\ template_name e.1 = row_name r).
Proof.
  intros Hr. unfold GetWikiTemplateList.
  destruct (template_files path open (pre ++ (name, false) :: post) ∅)
    as [m|e|] eqn:E; [|done..].
  intros [= <-]. split; [|split].
  - intros Hext Hpost. rewrite template_files_app in E.
    destruct (template_files path open pre ∅) as [m1|e|]; [|done..].
    cbn [template_files] in E. unfold second_piece in Hext.
    destruct (Split name dot !! 1) as [ext|]; [|done].
    destruct (String.eqb_spec ext "txt") as [Heq|_]; [by rewrite Heq in Hext|].
    destruct (template_files_keeps_file path open post _ m
                (template_name name) name
                (default (EmptyString, EmptyString)
                   (m1 !! hd EmptyString (Split name dot))).2 E)
      as [d Hd]; [apply lookup_insert_eq|done|].
    exists d. by apply rows_elem_of.
  - intros Hext Hpost. rewrite template_files_app in E.
    destruct (template_files path open pre ∅) as [m1|e|]; [|done..].
    cbn [template_files] in E. unfold second_piece in Hext. rewrite Hext in E.
    cbn [String.eqb Ascii.eqb Bool.eqb] in E.
    destruct (open (filepath_Join path name)) as [f|e|]; [|done..].
    rewrite description_loop_all, app_nil_l in E.
    destruct (template_files_keeps_description path open post _ m
                (template_name name)
                (default (EmptyString, EmptyString)
                   (m1 !! hd EmptyString (Split name dot))).1 f E)
      as [file Hf]; [apply lookup_insert_eq|done|].
    exists file, f. split; [done|]. by apply rows_elem_of.
  - intros [[n file] d] Hin. apply rows_elem_of in Hin; [|done].
    destruct (template_files_names path open _ ∅ m n E) as [H|H].
    + by rewrite Hin.
    + by rewrite lookup_empty in H; destruct H.
    + done.
Qed.

Lemma GetWikiTemplateList_rows_witness :
  exists rows,
    GetWikiTemplateList (Ok templates_dir) "templates" templates_open map_to_list
    = Ok rows
    /\ (exists d, ("blog", "blog.html", d) ∈ rows)
    /\ (forall r, r ∈ rows ->
          exists e : DirEntry,
            e ∈ templates_dir /\ e.2 = false /\ template_name e.1 = row_name r).
Proof.
  destruct (GetWikiTemplateList (Ok templates_dir) "templates" templates_open
              map_to_list) as [rows|e|] eqn:E; [|discriminate E..].
  exists rows. split; [reflexivity|].
  destruct (GetWikiTemplateList_rows [] (tail templates_dir) "blog.html"
              "templates" templates_open map_to_list rows) as (H1 & _ & H3).
  - intros m. reflexivity.
  - exact E.
  - split; [|exact H3]. apply H1; [discriminate|].
    repeat constructor; cbn; intros; (reflexivity || discriminate).
Defined.

(** * Who may read and write *)

(** X29.  The rights [basicAuthCtx] hands out.  A request is turned away
    exactly when it is not authenticated, the list of readers is not nil
    and the path is not [/login-basic].  What the list of readers holds
    is never looked at: any user with the right password is let in.  An
    authenticated user may write when the list of writers is nil or
    empty, or names the user; a request that is not authenticated and is
    let in is the guest, who may write exactly when the list of writers
    is nil. *)
Theorem basicAuthCtx_rights (r : Request) (c : Credentials) :
  (basicAuthCtx r c = None
   <-> authenticated_user c r = None /\ Readers c <> None
       /\ URLPath r <> "/login-basic")
  /\ (forall l1 l2,
        basicAuthCtx r (mkCredentials (UserPasswordsClearText c) (Some l1) (Writers c))
        = basicAuthCtx r (mkCredentials (UserPasswordsClearText c) (Some l2) (Writers c)))
  /\ (forall user,
        authenticated_user c r = Some user ->
        exists auth,
          basicAuthCtx r c = Some auth
          /\ Username auth = user
          /\ CanBeAnonymous auth = false
          /\ (WritingAllowed auth = true
              <-> Writers c = None \/ Writers c = Some [] \/
                  exists writers, Writers c = Some writers /\ user ∈ writers))
  /\ (forall auth,
        authenticated_user c r = None ->
        basicAuthCtx r c = Some auth ->
        Username auth = AuthAnonUsername
        /\ (WritingAllowed auth = true <-> Writers c = None)
        /\ (CanBeAnonymous auth = true <-> Writers c = None \/ Readers c = None)).
Proof.
  split; [|split; [|split]].
  - unfold basicAuthCtx. destruct (authenticated_user c r) as [user|].
    { split; [done|]. by intros [? _]. }
    destruct (String.eqb_spec (URLPath r) "/login-basic") as [Hp|Hp];
      cbn [negb andb].
    { split; [done|]. by intros (_ & _ & ?). }
    case_bool_decide as Hr.
    + by split.
    + split; [done|]. by intros (_ & ? & _).
  - intros l1 l2. unfold basicAuthCtx, authenticated_user, userCanWrite.
    cbn [Readers Writers UserPasswordsClearText].
    destruct (BasicAuth r) as [[user pass]|]; [|by destruct (Writers c)].
    destruct (UserPasswordsClearText c !! user) as [credPass|];
      [|by destruct (Writers c)].
    destruct (String.eqb pass credPass); [done|]. by destruct (Writers c).
  - intros user Hu. unfold basicAuthCtx. rewrite Hu. eexists.
    split; [done|]. split; [done|]. split; [done|].
    cbn [WritingAllowed]. unfold userCanWrite.
    destruct (Writers c) as [[|w ws]|].
    + split; [|done]. intros _. right. by left.
    + rewrite existsb_exists. split.
      * intros (x & Hin & Hx). right. right. exists (w :: ws). split; [done|].
        rewrite andb_true_r in Hx. apply String.eqb_eq in Hx as ->.
        by apply list_elem_of_In.
      * intros [?|[?|(writers & [= <-] & Hin)]]; [done..|].
        exists user. split; [by apply list_elem_of_In|].
        by rewrite String.eqb_refl.
    + split; [|done]. intros _. by left.
  - intros auth Hu. unfold basicAuthCtx. rewrite Hu.
    destruct (negb _ && bool_decide _); [done|].
    destruct (Writers c), (Readers c); intros [= <-]; cbn;
      (split; [done|]); split; split; try done; try (by left); try (by right);
      intros [?|?]; done.
Qed.

Lemma basicAuthCtx_rights_witness :
  exists auth,
    basicAuthCtx request_alice
      (mkCredentials passwords_A (Some ["bob"]) (Some ["carol"; "alice"]))
    = Some auth
    /\ Username auth = "alice"
    /\ CanBeAnonymous auth = false
    /\ (WritingAllowed auth = true
        <-> Some ["carol"; "alice"] = None \/ Some ["carol"; "alice"] = Some [] \/
            exists writers, Some ["carol"; "alice"] = Some writers /\ "alice" ∈ writers).
Proof.
  destruct (basicAuthCtx_rights request_alice
              (mkCredentials passwords_A (Some ["bob"]) (Some ["carol"; "alice"])))
    as (_ & _ & H & _).
  apply (H "alice"). reflexivity.
Defined.

(** X30.  A list of writers (or of readers) given on the command line as
    one name, with no comma in it, is dropped: the list stays nil, and
    then everybody who is let in may write, the guest too.  The same
    holds for the empty argument; only an argument with a comma, or the
    token for all the users of the credentials file, makes a list. *)
Theorem creds_list_single_name (arg : string) (users : list string)
    (r : Request) (c : Credentials) (auth : authContext) :
  Contains arg "," = false ->
  arg <> authTokenAuthenticated ->
  Writers c = creds_list arg users ->
  basicAuthCtx r c = Some auth ->
  creds_list arg users = None /\ WritingAllowed auth = true.
Proof.
  intros Hc Ht Hw Ha. unfold creds_list in *. rewrite Hc in *.
  destruct (String.eqb_spec arg authTokenAuthenticated); [done|].
  split; [done|]. revert Ha. unfold basicAuthCtx, userCanWrite. rewrite Hw.
  destruct (authenticated_user c r); [by intros [= <-]|].
  destruct (negb _ && bool_decide _); [done|]. by intros [= <-].
Qed.

Lemma creds_list_single_name_witness :
  creds_list "alice" ["alice"] = None
  /\ WritingAllowed (mkAuthContext AuthAnonUsername true true) = true.
Proof.
  apply (creds_list_single_name "alice" ["alice"] request_anonymous
           (mkCredentials passwords_A None None)); reflexivity || discriminate.
Defined.

(** * The required folders *)

Lemma required_flags_spec (l : list DirEntry) (f : bool * bool * bool) :
  foldl required_flags f l
  = (f.1.1 || has_dir "wikis" l, f.1.2 || has_dir "templates" l,
     f.2 || has_dir "trash" l).
Proof.
  revert f. induction l as [|[n d] l IH]; intros [[w t] r].
  - cbn. by rewrite !orb_false_r.
  - cbn [foldl]. rewrite IH. unfold required_flags, has_dir.
    cbn [fst snd existsb]. destruct d; cbn [andb orb]; [|done].
    destruct (String.eqb_spec n "wikis") as [->|H1].
    { cbn [fst snd]. change (String.eqb "wikis" "templates") with false.
      change (String.eqb "wikis" "trash") with false.
      cbn [orb]. by rewrite orb_true_r. }
    destruct (String.eqb_spec n "templates") as [->|H2].
    { cbn [fst snd]. change (String.eqb "templates" "trash") with false.
      cbn [orb]. by rewrite orb_true_r. }
    destruct (String.eqb_spec n "trash") as [->|H3].
    { cbn [fst snd orb]. by rewrite orb_true_r. }
    done.
Qed.

Lemma has_dir_lookup (name : string) (dir : Folder) :
  has_dir name (map_to_list dir) = bool_decide (dir !! name = Some true).
Proof.
  unfold has_dir. apply eq_true_iff_eq.
  rewrite existsb_exists, bool_decide_eq_true. split.
  - intros ([n d] & Hin & H). cbn in H. apply andb_true_iff in H as [-> H].
    apply String.eqb_eq in H as ->.
    by apply list_elem_of_In, elem_of_map_to_list in Hin.
  - intros H. exists (name, true). split.
    + by apply list_elem_of_In, elem_of_map_to_list.
    + cbn. by rewrite String.eqb_refl.
Qed.

Lemma CreateRequiredFolders_flags (denied : string -> option string)
    (path : string) (dir : Folder) :
  CreateRequiredFolders denied path dir =
  let '(dir1, err1) :=
    if bool_decide (dir !! "wikis" = Some true) then (dir, None)
    else Mkdir denied path dir "wikis" in
  match err1 with
  | Some e => (dir1, Some e)
  | None =>
      let '(dir2, err2) :=
        if bool_decide (dir !! "templates" = Some true) then (dir1, None)
        else Mkdir denied path dir1 "templates" in
      match err2 with
      | Some e => (dir2, Some e)
      | None =>
          if bool_decide (dir !! "trash" = Some true) then (dir2, None)
          else Mkdir denied path dir2 "trash"
      end
  end.
Proof.
  unfold CreateRequiredFolders. rewrite required_flags_spec.
  cbn [fst snd orb]. by rewrite !has_dir_lookup.
Qed.

Lemma Mkdir_ok (denied : string -> option string) (path : string)
    (dir dir' : Folder) (name : string) :
  Mkdir denied path dir name = (dir', None) ->
  dir !! name = None /\ dir' = <[name := true]> dir.
Proof.
  unfold Mkdir. destruct (dir !! name); [done|].
  destruct (denied name); [done|]. by intros [= <-].
Qed.

Lemma ensure_dir_ok (denied : string -> option string) (path : string)
    (listed dir dir' : Folder) (name : string) :
  listed ⊆ dir ->
  ensure_dir denied path listed dir name = (dir', None) ->
  dir' !! name = Some true
  /\ dir ⊆ dir'
  /\ (forall n, n <> name -> dir' !! n = dir !! n).
Proof.
  intros Hsub. unfold ensure_dir. case_bool_decide as Hl.
  - intros [= <-]. split; [by eapply lookup_weaken|done].
  - intros [Hn ->]%Mkdir_ok. split; [by rewrite lookup_insert_eq|].
    split; [by apply insert_subseteq|].
    intros n Hne. by rewrite lookup_insert_ne.
Qed.

Lemma CreateRequiredFolders_steps (denied : string -> option string)
    (path : string) (dir : Folder) :
  CreateRequiredFolders denied path dir =
  let '(dir1, err1) := ensure_dir denied path dir dir "wikis" in
  match err1 with
  | Some e => (dir1, Some e)
  | None =>
      let '(dir2, err2) := ensure_dir denied path dir dir1 "templates" in
      match err2 with
      | Some e => (dir2, Some e)
      | None => ensure_dir denied path dir dir2 "trash"
      end
  end.
Proof. apply CreateRequiredFolders_flags. Qed.

Lemma CreateRequiredFolders_dirs (denied : string -> option string)
    (path : string) (dir dir' : Folder) :
  CreateRequiredFolders denied path dir = (dir', None) ->
  dir' !! "wikis" = Some true /\ dir' !! "templates" = Some true
  /\ dir' !! "trash" = Some true /\ dir ⊆ dir'
  /\ (forall n, n ∉ required_folders -> dir' !! n = dir !! n).
Proof.
  rewrite CreateRequiredFolders_steps.
  destruct (ensure_dir denied path dir dir "wikis") as [dir1 [e|]] eqn:E1; [done|].
  destruct (ensure_dir denied path dir dir1 "templates") as [dir2 [e|]] eqn:E2;
    [done|].
  intros E3.
  destruct (ensure_dir_ok _ _ _ _ _ _ (reflexivity dir) E1) as (Hw & S1 & O1).
  destruct (ensure_dir_ok _ _ _ _ _ _ S1 E2) as (Ht & S2 & O2).
  assert (dir ⊆ dir2) as S02 by (by etrans).
  destruct (ensure_dir_ok _ _ _ _ _ _ S02 E3) as (Hr & S3 & O3).
  split; [by rewrite O3, O2|]. split; [by rewrite O3|]. split; [done|].
  split; [by etrans|].
  intros n Hn. unfold required_folders in Hn.
  rewrite !not_elem_of_cons in Hn. destruct Hn as (? & ? & ? & _).
  by rewrite O3, O2, O1.
Qed.

(** X23.  After a call that succeeded the three folders are there, as
    directories; every entry the folder held before is still there,
    unchanged; and a second call succeeds without changing anything,
    whatever the system would refuse by then. *)
Theorem CreateRequiredFolders_success (denied : string -> option string)
    (path : string) (dir dir' : Folder) :
  CreateRequiredFolders denied path dir = (dir', None) ->
  (forall n, n ∈ required_folders -> dir' !! n = Some true)
  /\ (forall n, n ∉ required_folders -> dir' !! n = dir !! n)
  /\ dir ⊆ dir'
  /\ (forall denied', CreateRequiredFolders denied' path dir' = (dir', None)).
Proof.
  intros H.
  destruct (CreateRequiredFolders_dirs _ _ _ _ H) as (Hw & Ht & Hr & Hsub & Ho).
  split; [|split; [|split]].
  - intros n Hn. unfold required_folders in Hn.
    rewrite !elem_of_cons, elem_of_nil in Hn.
    by destruct Hn as [->|[->|[->|[]]]].
  - done.
  - done.
  - intros denied'. rewrite CreateRequiredFolders_flags.
    by rewrite !bool_decide_eq_true_2.
Qed.

Lemma CreateRequiredFolders_success_witness :
  CreateRequiredFolders (fun _ => None) "store" {[ "wikis" := true ]}
  = ({[ "wikis" := true; "templates" := true; "trash" := true ]}, None)
  /\ CreateRequiredFolders (fun _ => Some "permission denied") "store"
       {[ "wikis" := true; "templates" := true; "trash" := true ]}
     = ({[ "wikis" := true; "templates" := true; "trash" := true ]}, None).
Proof.
  assert (CreateRequiredFolders (fun _ => None) "store" {[ "wikis" := true ]}
          = ({[ "wikis" := true; "templates" := true; "trash" := true ]}, None))
    as H.
  { rewrite CreateRequiredFolders_flags. apply pair_equal_spec. split; [|done].
    apply map_eq. intros n. unfold Mkdir. cbn.
    destruct (decide (n = "trash")) as [->|?]; [done|].
    destruct (decide (n = "templates")) as [->|?]; [done|].
    destruct (decide (n = "wikis")) as [->|?]; [done|].
    by simplify_map_eq. }
  split; [exact H|].
  apply (CreateRequiredFolders_success _ _ _ _ H).
Defined.

(** X24.  A plain file that carries one of the three names makes the call
    fail, and the folders that come before it in the order of the three
    are made all the same: with a plain file named [templates] and no
    entry named [wikis], the folder [wikis] is there after the failed
    call. *)
Theorem CreateRequiredFolders_plain_file (denied : string -> option string)
    (path : string) (dir : Folder) (name : string) :
  name ∈ required_folders ->
  dir !! name = Some false ->
  (CreateRequiredFolders denied path dir).2 <> None
  /\ (name = "templates" ->
      dir !! "wikis" = None ->
      denied "wikis" = None ->
      CreateRequiredFolders denied path dir
      = (<["wikis" := true]> dir,
         Some ("mkdir " +:+ filepath_Join path "templates" +:+ ": file exists"))).
Proof.
  intros Hn Hfile. split.
  - intros Hnone.
    destruct (CreateRequiredFolders denied path dir) as [dir' e] eqn:E.
    cbn in Hnone. subst e.
    destruct (CreateRequiredFolders_dirs _ _ _ _ E) as (Hw & Ht & Hr & Hsub & _).
    pose proof (lookup_weaken _ _ _ _ Hfile Hsub) as Hl.
    unfold required_folders in Hn. rewrite !elem_of_cons, elem_of_nil in Hn.
    destruct Hn as [->|[->|[->|[]]]]; congruence.
  - intros -> Hw Hd. rewrite CreateRequiredFolders_flags.
    rewrite (bool_decide_eq_false_2 (dir !! "wikis" = Some true)) by congruence.
    rewrite (bool_decide_eq_false_2 (dir !! "templates" = Some true))
      by congruence.
    unfold Mkdir. rewrite Hw, Hd.
    by rewrite lookup_insert_ne, Hfile.
Qed.

Lemma CreateRequiredFolders_plain_file_witness :
  CreateRequiredFolders (fun _ => None) "store" {[ "templates" := false ]}
  = (<["wikis" := true]> {[ "templates" := false ]},
     Some "mkdir store/templates: file exists").
Proof.
  destruct (CreateRequiredFolders_plain_file (fun _ => None) "store"
              {[ "templates" := false ]} "templates") as [_ H].
  - unfold required_folders. apply elem_of_cons. right. by left.
  - reflexivity.
  - apply H; reflexivity.
Defined.

(** * The payload of a PUT and the encoder *)

Lemma Write_buf_encodable (t : Tiddler) (ord : list (string * Value)) :
  map_Forall (fun f x => encodable f x = true) t ->
  ord ≡ₚ map_to_list t ->
  exists out, Write_buf t ord = Ok out.
Proof.
  intros Hall Hord.
  assert (Forall (fun e => encodable e.1 e.2 = true) ord) as Hf.
  { rewrite Hord. apply Forall_forall. intros [f x] Hin.
    apply elem_of_map_to_list in Hin. by apply Hall. }
  unfold Write_buf.
  destruct (write_range_encodable ord EmptyString Hf) as [buf ->].
  destruct (t !! "text") as [x|] eqn:Et; [|by eexists].
  apply Hall in Et. destruct x; try done. by eexists.
Qed.

Lemma putTiddler_tag_loop_strings (l : list Value) (tags : list string) :
  forallb is_string l = true ->
  exists tags', putTiddler_tag_loop l tags = Ok tags'.
Proof.
  revert tags. induction l as [|x l IH]; intros tags; [by eexists|].
  cbn [forallb putTiddler_tag_loop]. destruct x; cbn [is_string andb]; try done.
  apply IH.
Qed.

Lemma putTiddler_tag_loop_panics (l : list Value) (tags : list string) :
  forallb is_string l = false -> putTiddler_tag_loop l tags = Panic.
Proof.
  revert tags. induction l as [|x l IH]; intros tags; [done|].
  cbn [forallb putTiddler_tag_loop]. destruct x; cbn [is_string andb]; try done.
  apply IH.
Qed.

Lemma foldl_insert_lookup (m : list (string * Value)) (t : Tiddler)
    (k : string) (x : Value) :
  foldl (fun (t : Tiddler) (e : string * Value) => <[e.1 := e.2]> t) t m !! k
  = Some x ->
  (k, x) ∈ m \/ t !! k = Some x.
Proof.
  revert t. induction m as [|[f v] m IH]; intros t; [by right|].
  cbn [foldl fst snd]. intros H. destruct (IH _ H) as [Hin|Hl].
  - left. by right.
  - destruct (decide (f = k)) as [->|Hne].
    + rewrite lookup_insert_eq in Hl. injection Hl as ->. left. by left.
    + rewrite lookup_insert_ne in Hl by done. by right.
Qed.

(** X25.  What [putTiddler] makes of a payload of the shape the client sends
    (the tags a string or an array of strings, the [fields] a nested map
    of strings, every other value a string): a record of strings with no
    [fields] key, which the encoder writes without a panic, whatever the
    order of the map range.  An array of tags with an element that is not
    a string makes the handler panic. *)
Theorem putTiddler_payload_encodable (newTiddler : Tiddler) :
  (map_Forall (fun f x => payload_entry f x = true) newTiddler ->
   exists t,
     putTiddler_payload newTiddler = Ok t
     /\ all_strings t
     /\ t !! "fields" = None
     /\ (forall ord, ord ≡ₚ map_to_list t -> exists out, Write_buf t ord = Ok out))
  /\ (forall l,
        newTiddler !! "tags" = Some (VArray l) ->
        forallb is_string l = false ->
        putTiddler_payload newTiddler = Panic).
Proof.
  split.
  - intros Hall. unfold putTiddler_payload.
    assert (exists t1,
               putTiddler_tags newTiddler = Ok t1
               /\ (forall f x, t1 !! f = Some x ->
                     if String.eqb f "fields" then encodable f x = true
                     else is_string x = true)
               /\ t1 !! "fields" = newTiddler !! "fields") as (t1 & -> & H1 & Hf1).
    { assert (forall f x, f <> "tags" -> newTiddler !! f = Some x ->
                if String.eqb f "fields" then encodable f x = true
                else is_string x = true) as Hother.
      { intros f x Hne Hx. apply Hall in Hx. unfold payload_entry in Hx.
        destruct (String.eqb_spec f "tags"); [done|].
        destruct (String.eqb_spec f "fields") as [->|Hnf]; [done|].
        unfold encodable in Hx. by destruct (String.eqb_spec f "fields"). }
      unfold putTiddler_tags.
      destruct (newTiddler !! "tags") as [x|] eqn:Et.
      - pose proof (Hall _ _ Et) as Hx. unfold payload_entry in Hx. cbn in Hx.
        destruct x as [s| |l|]; try done.
        + exists newTiddler. split; [done|]. split; [|done].
          intros f x Hfx. destruct (decide (f = "tags")) as [->|Hne].
          * rewrite Et in Hfx. by injection Hfx as <-.
          * by apply Hother.
        + destruct (putTiddler_tag_loop_strings l [] Hx) as [tags ->].
          eexists. split; [done|]. split; [|by rewrite lookup_insert_ne].
          intros f x. destruct (decide (f = "tags")) as [->|Hne].
          * rewrite lookup_insert_eq. by intros [= <-].
          * rewrite lookup_insert_ne by done. by apply Hother.
      - exists newTiddler. split; [done|]. split; [|done].
        intros f x Hfx. apply Hother; [|done]. intros ->. congruence. }
    unfold putTiddler_fields.
    assert (forall t : Tiddler,
               (forall f x, t !! f = Some x -> f <> "fields" -> is_string x = true) ->
               t !! "fields" = None ->
               all_strings t
               /\ t !! "fields" = None
               /\ (forall ord, ord ≡ₚ map_to_list t ->
                     exists out, Write_buf t ord = Ok out)) as Hdone.
    { intros t Ht Hnf. split; [|split; [done|]].
      - intros f x Hfx. assert (f <> "fields") as Hne by congruence.
        specialize (Ht f x Hfx Hne). destruct x; try done. by eexists.
      - intros ord Hord. apply Write_buf_encodable; [|done].
        intros f x Hfx. assert (f <> "fields") as Hne by congruence.
        specialize (Ht f x Hfx Hne). unfold encodable.
        by destruct (String.eqb_spec f "fields"). }
    destruct (t1 !! "fields") as [x|] eqn:Ef.
    + pose proof (H1 _ _ Ef) as Hx. cbn in Hx. destruct x as [| | |m]; try done.
      eexists. split; [done|]. apply Hdone; [|apply lookup_delete_eq].
      intros f x Hfx Hne. rewrite lookup_delete_ne in Hfx by done.
      apply foldl_insert_lookup in Hfx as [Hin|Hl].
      * rewrite forallb_forall in Hx.
        apply (Hx (f, x)). by apply list_elem_of_In.
      * specialize (H1 _ _ Hl). by destruct (String.eqb_spec f "fields").
    + exists t1. split; [done|]. apply Hdone; [|done].
      intros f x Hfx Hne. specialize (H1 _ _ Hfx).
      by destruct (String.eqb_spec f "fields").
  - intros l Ht Hl. unfold putTiddler_payload, putTiddler_tags.
    by rewrite Ht, (putTiddler_tag_loop_panics l [] Hl).
Qed.

Lemma putTiddler_payload_encodable_witness :
  exists t,
    putTiddler_payload payload_A = Ok t
    /\ all_strings t
    /\ t !! "fields" = None
    /\ (forall ord, ord ≡ₚ map_to_list t -> exists out, Write_buf t ord = Ok out).
Proof.
  apply putTiddler_payload_encodable.
  intros f x. unfold payload_A. rewrite !lookup_insert_Some, lookup_empty.
  intros [[<- <-]|[_ [[<- <-]|[_ [[<- <-]|[_ [[<- <-]|[_ H]]]]]]]];
    [reflexivity..|discriminate H].
Defined.

(** * The skinny list *)

Lemma copy_fields_lookup (tid : Tiddler) (keeptext : bool) (k : string) :
  copy_fields tid keeptext !! k
  = if String.eqb k "text" && negb keeptext then None else tid !! k.
Proof.
  unfold copy_fields.
  destruct (String.eqb_spec k "text") as [->|Hne]; destruct keeptext; cbn [andb negb].
  - destruct (tid !! "text") as [x|] eqn:E.
    + apply map_lookup_filter_Some. split; [done|]. by intros [_ ?].
    + apply map_lookup_filter_None. left. done.
  - apply map_lookup_filter_None. right. intros x _ H. by apply H.
  - destruct (tid !! k) as [x|] eqn:E.
    + apply map_lookup_filter_Some. split; [done|]. by intros [? _].
    + apply map_lookup_filter_None. by left.
  - destruct (tid !! k) as [x|] eqn:E.
    + apply map_lookup_filter_Some. split; [done|]. by intros [? _].
    + apply map_lookup_filter_None. by left.
Qed.

Lemma copy_fields_skinny (tid : Tiddler) (keeptext : bool) :
  keeptext_of tid = Ok keeptext -> skinny_of tid (copy_fields tid keeptext).
Proof.
  intros Hk. split; [|split; [|split]].
  - intros k Hne. rewrite copy_fields_lookup.
    by destruct (String.eqb_spec k "text").
  - rewrite copy_fields_lookup. destruct keeptext; [by right|by left].
  - intros s Hs. unfold keeptext_of in Hk. rewrite Hs in Hk.
    injection Hk as <-. rewrite copy_fields_lookup.
    by destruct (Contains s macro_tag).
  - intros Hn. unfold keeptext_of in Hk. rewrite Hn in Hk.
    injection Hk as <-. by rewrite copy_fields_lookup.
Qed.

Lemma skinny_loop_entries (tids skinny out : list Tiddler) :
  skinny_loop tids skinny = Ok out ->
  exists new,
    out = skinny ++ new
    /\ Forall2 skinny_of (List.filter (fun tid => negb (is_system tid)) tids) new
    /\ Forall (fun sk : Tiddler =>
                 exists title, sk !! "title" = Some (VString title)
                               /\ HasPrefix title "$:/" = false) new.
Proof.
  revert skinny. induction tids as [|tid tids IH]; intros skinny.
  - intros [= <-]. exists []. by rewrite List.app_nil_r.
  - cbn [skinny_loop List.filter]. unfold is_system.
    destruct (tid !! "title") as [[title| | |]|] eqn:Et; try done.
    destruct (HasPrefix title "$:/") eqn:Ep; cbn [negb]; [apply IH|].
    destruct (keeptext_of tid) as [keeptext|e|] eqn:Ek; [|done..].
    intros H. destruct (IH _ H) as (new & -> & Hf & Ht).
    exists (copy_fields tid keeptext :: new).
    split; [by rewrite <- List.app_assoc|]. split.
    + constructor; [by apply copy_fields_skinny|done].
    + constructor; [|done]. exists title. split; [|done].
      by rewrite copy_fields_lookup.
Qed.


(** X27.  The skinny list made of the tiddlers of the store holds one entry
    for every tiddler whose title does not start with [$:/], in their
    order, and none for the others.  An entry has the fields of its
    tiddler; its text is there only when the tags hold the macro tag. *)
Theorem getSkinnyTiddlerList_entries (tids skinny : list Tiddler) :
  getSkinnyTiddlerList [] (Ok tids) = Ok skinny ->
  Forall2 skinny_of (List.filter (fun tid => negb (is_system tid)) tids) skinny
  /\ Forall (fun sk : Tiddler =>
               exists title, sk !! "title" = Some (VString title)
                             /\ HasPrefix title "$:/" = false) skinny.
Proof.
  cbn [getSkinnyTiddlerList length Nat.leb]. intros H.
  by destruct (skinny_loop_entries _ _ _ H) as (new & -> & Hf & Ht).
Qed.

Lemma getSkinnyTiddlerList_entries_witness :
  exists skinny,
    getSkinnyTiddlerList [] (Ok [tiddler_system; tiddler_macro; tiddler_A])
    = Ok skinny
    /\ Forall2 skinny_of [tiddler_macro; tiddler_A] skinny.
Proof.
  destruct (getSkinnyTiddlerList [] (Ok [tiddler_system; tiddler_macro; tiddler_A]))
    as [skinny|e|] eqn:E; [|discriminate E..].
  exists skinny. split; [reflexivity|].
  apply (getSkinnyTiddlerList_entries _ _ E).
Defined.



(** * The walks and the files a store writes *)

Lemma string_app_inv_head (a x y : string) : a +:+ x = a +:+ y -> x = y.
Proof.
  induction a as [|c a IH]; [done|]. rewrite !app_cons. intros [= H]. by apply IH.
Qed.

Lemma HasPrefix_app_sep (x y q : string) (c : ascii) :
  IndexByte q c = None ->
  HasPrefix (x +:+ String c y) q = HasPrefix x q.
Proof.
  revert q. induction x as [|a x IH]; intros q Hq.
  - rewrite app_nil_l. destruct q as [|d q]; [done|].
    cbn [IndexByte] in Hq. rewrite HasPrefix_cons.
    destruct (Ascii.eqb_spec d c) as [->|Hne]; [done|].
    destruct (Ascii.eqb_spec c d) as [->|_]; done.
  - rewrite app_cons. destruct q as [|d q]; [done|].
    rewrite !HasPrefix_cons. cbn [IndexByte] in Hq.
    destruct (Ascii.eqb d c); [done|].
    destruct (IndexByte q c) eqn:E; [done|]. by rewrite IH.
Qed.

Lemma IndexByte_rev_None (q : string) (c : ascii) :
  IndexByte q c = None -> IndexByte (String.rev q) c = None.
Proof.
  assert (forall s t, IndexByte s c = None -> IndexByte t c = None ->
            IndexByte (s +:+ t) c = None) as Happ.
  { induction s as [|a s IH]; intros t Hs Ht; [done|].
    rewrite app_cons. cbn [IndexByte] in *.
    destruct (Ascii.eqb a c); [done|].
    destruct (IndexByte s c) eqn:E; [done|]. by rewrite IH. }
  induction q as [|a q IH]; [done|]. cbn [IndexByte].
  destruct (Ascii.eqb a c) eqn:Ea; [done|].
  destruct (IndexByte q c) eqn:E; [done|]. intros _.
  change (String a q) with (String a EmptyString +:+ q).
  rewrite rev_app_distr. apply Happ; [by apply IH|].
  cbn. by rewrite Ea.
Qed.

Lemma HasSuffix_app_sep (x y q : string) (c : ascii) :
  IndexByte q c = None ->
  HasSuffix (x +:+ String c y) q = HasSuffix y q.
Proof.
  intros Hq. unfold HasSuffix.
  change (String c y) with (String c EmptyString +:+ y).
  rewrite !rev_app_distr, app_assoc.
  change (String.rev (String c EmptyString)) with (String c EmptyString).
  rewrite app_cons, app_nil_l.
  by apply HasPrefix_app_sep, IndexByte_rev_None.
Qed.

Lemma filepath_Join_nonempty (dir name : string) :
  dir <> EmptyString -> filepath_Join dir name = dir +:+ "/" +:+ name.
Proof.
  intros H. unfold filepath_Join.
  by destruct (String.eqb_spec dir EmptyString).
Qed.

(** X26.  Whether a walk finds the file a [WriteTiddler] made for a title.
    The walk of the file store judges the path relative to the tiddlers
    folder: it leaves out the file of the empty title and of a title that
    starts with a dot.  The walks of the bucket stores judge the whole
    key: they list those too, unless the tiddlers folder itself starts
    with a dot.  All of them leave out a title that ends like the one
    excluded plugin. *)
Theorem walk_of_written_file (tdir title : string) (entries : list DirEntry)
    (keys : list string) :
  tdir <> EmptyString ->
  (filepath_Join tdir (tiddlerFilename title) ∈ fileStore_walk tdir entries
   <-> (tiddlerFilename title, false) ∈ entries
       /\ title <> EmptyString
       /\ HasPrefix title "." = false
       /\ HasSuffix (replaceSpecial title) excluded_plugin = false)
  /\ (filepath_Join tdir (tiddlerFilename title) ∈ bucket_walk tdir keys
      <-> filepath_Join tdir (tiddlerFilename title) ∈ keys
          /\ HasPrefix tdir "." = false
          /\ HasSuffix (replaceSpecial title) excluded_plugin = false).
Proof.
  intros Hdir. split.
  - unfold fileStore_walk. rewrite list_elem_of_omap.
    assert (isTiddlerFile (tiddlerFilename title) = true
            <-> title <> EmptyString /\ HasPrefix title "." = false
                /\ HasSuffix (replaceSpecial title) excluded_plugin = false)
      as Hfile.
    { rewrite isTiddlerFile_of_tiddlerFilename. unfold excluded_plugin.
      destruct (String.eqb_spec title EmptyString), (HasPrefix title "."),
        (HasSuffix (replaceSpecial title) _); cbn;
        (split; [intros ?; try discriminate; by repeat split
                |intros (? & ? & ?); congruence]). }
    split.
    + intros ([n d] & Hin & He). cbn [fst snd] in He.
      destruct d; [done|]. cbn [orb] in He.
      destruct (isTiddlerFile n) eqn:Et; [|done]. injection He as He.
      rewrite !filepath_Join_nonempty in He by done.
      apply string_app_inv_head, string_app_inv_head in He. subst n.
      split; [done|]. by apply Hfile.
    + intros (Hin & Hrest). exists (tiddlerFilename title, false).
      split; [done|]. cbn [fst snd orb].
      by rewrite (proj2 Hfile Hrest).
  - unfold bucket_walk. rewrite list_elem_of_In, filter_In, <- list_elem_of_In.
    rewrite filepath_Join_nonempty by done.
    assert (HasPrefix (tdir +:+ "/" +:+ tiddlerFilename title) tdir = true) as ->
      by apply HasPrefix_app.
    cbn [andb]. unfold isTiddlerFile.
    assert (HasPrefix (tdir +:+ "/" +:+ tiddlerFilename title) "."
            = HasPrefix tdir ".") as ->.
    { destruct tdir as [|a t]; [done|]. rewrite app_cons.
      change "." with (String "."%char EmptyString). by rewrite !HasPrefix_cons. }
    assert (HasSuffix (tdir +:+ "/" +:+ tiddlerFilename title) ".tid" = true) as ->.
    { unfold tiddlerFilename. rewrite <- !app_assoc. apply HasSuffix_app. }
    assert (HasSuffix (tdir +:+ "/" +:+ tiddlerFilename title)
              "$__plugins_tobibeer_rate_styles_imgfix.tid"
            = HasSuffix (replaceSpecial title) excluded_plugin) as ->.
    { unfold tiddlerFilename. rewrite <- !app_assoc.
      rewrite (HasSuffix_app_cancel _ excluded_plugin ".tid").
      rewrite app_assoc. by apply (HasSuffix_app_sep tdir _ _ "/"%char). }
    cbn [negb andb orb].
    destruct (HasPrefix tdir "."), (HasSuffix (replaceSpecial title) _);
      (split; [intros [? ?]; try discriminate; by repeat split
              |intros (? & ? & ?); by try discriminate]).
Qed.

Lemma walk_of_written_file_witness :
  "wiki/tiddlers/.hidden.tid"
    ∈ bucket_walk "wiki/tiddlers" ["wiki/tiddlers/.hidden.tid"]
  /\ ~ "wiki/tiddlers/.hidden.tid"
       ∈ fileStore_walk "wiki/tiddlers" [(".hidden.tid", false)].
Proof.
  destruct (walk_of_written_file "wiki/tiddlers" ".hidden"
              [(".hidden.tid", false)] ["wiki/tiddlers/.hidden.tid"])
    as [Hfile Hbucket]; [discriminate|].
  split.
  - apply Hbucket. split; [by left|]. split; reflexivity.
  - intros H. apply Hfile in H as (_ & _ & H & _). discriminate H.
Defined.
